(** * Schema diffing and migration rendering: [scripts/run.py]

    A shallow embedding of [parse_schema], [diff_schemas],
    [generate_migration] and [main], followed by the properties of the
    four functions.

    Python [str] values are [string]s; a Python [dict] is an
    insertion-ordered association list whose keys are pairwise distinct
    ([Dict.wf]).  A subscript [d[k]] may raise [KeyError], so the code
    that subscripts lives in the [option] monad. *)

From Stdlib Require Import List String Ascii Bool Arith Lia Permutation.
Import ListNotations.

Open Scope string_scope.
Open Scope list_scope.
Open Scope nat_scope.

Infix "+++" := String.append (right associativity, at level 60).

(** ** Error monad for [KeyError] *)

Definition bind {A B : Type} (m : option A) (k : A -> option B) : option B :=
  match m with
  | Some a => k a
  | None => None
  end.

Notation "x <- m ;; k" := (bind m (fun x => k))
  (at level 61, m at next level, right associativity).

(** [for x in xs: body], threading the mutated state [s]. *)
Fixpoint for_each {A S : Type} (xs : list A) (body : A -> S -> option S)
    (s : S) : option S :=
  match xs with
  | [] => Some s
  | x :: xs' => s' <- body x s ;; for_each xs' body s'
  end.

(** ** Insertion-ordered dictionaries *)

Definition dict (V : Type) : Type := list (string * V).

Module Dict.
Section Ops.
Context {V : Type}.

(** [list(d)], the keys in insertion order. *)
Definition keys (d : dict V) : list string := map fst d.

(** [d[k]]; [None] stands for [KeyError]. *)
Fixpoint get (d : dict V) (k : string) : option V :=
  match d with
  | [] => None
  | (k', v) :: d' => if String.eqb k' k then Some v else get d' k
  end.

(** [k in d]. *)
Definition mem (k : string) (d : dict V) : bool :=
  match get d k with
  | Some _ => true
  | None => false
  end.

(** [d[k] = v]: an existing key keeps its position, a new key goes last. *)
Fixpoint set (d : dict V) (k : string) (v : V) : dict V :=
  match d with
  | [] => [(k, v)]
  | (k', v') :: d' =>
      if String.eqb k' k then (k', v) :: d' else (k', v') :: set d' k v
  end.

(** [d.setdefault(k, dflt)]: the dictionary afterwards and the value
    returned. *)
Definition setdefault (d : dict V) (k : string) (dflt : V) : dict V * V :=
  match get d k with
  | Some v => (d, v)
  | None => (set d k dflt, dflt)
  end.

(** [bool(d)]. *)
Definition nonempty (d : dict V) : bool :=
  match d with
  | [] => false
  | _ :: _ => true
  end.

Definition wf (d : dict V) : Prop := NoDup (keys d).
End Ops.

(** [d.setdefault(k, {})[c] = v]: the inner dictionary is the object held
    by [d] at [k], so the write is seen through [d]. *)
Definition set_nested {V : Type} (d : dict (dict V)) (k c : string) (v : V)
    : dict (dict V) :=
  let '(d', inner) := setdefault d k [] in
  set d' k (set inner c v).

(** Python's [==] on dictionaries: same size and every key of the left
    operand is bound to an equal value in the right one. *)
Definition eqb {V : Type} (veqb : V -> V -> bool) (a b : dict V) : bool :=
  Nat.eqb (List.length a) (List.length b) &&
  forallb (fun '(k, v) =>
             match get b k with
             | Some v' => veqb v v'
             | None => false
             end) a.
End Dict.

(** ** Data model *)

(** Column name to definition text. *)
Definition columns : Type := dict string.

(** Table name to column set. *)
Definition schema : Type := dict columns.

Definition wf_schema (s : schema) : Prop :=
  Dict.wf s /\ Forall (fun tc => Dict.wf (snd tc)) s.

Definition columns_eqb : columns -> columns -> bool := Dict.eqb String.eqb.
Definition schema_eqb : schema -> schema -> bool := Dict.eqb columns_eqb.

(** The [changes] dictionary of [diff_schemas]; its four keys are fixed. *)
Record changes : Type := mk_changes
  { added_tables : schema;
    removed_tables : schema;
    added_columns : schema;
    removed_columns : schema }.

Definition with_added_tables (ch : changes) (d : schema) : changes :=
  mk_changes d (removed_tables ch) (added_columns ch) (removed_columns ch).
Definition with_removed_tables (ch : changes) (d : schema) : changes :=
  mk_changes (added_tables ch) d (added_columns ch) (removed_columns ch).
Definition with_added_columns (ch : changes) (d : schema) : changes :=
  mk_changes (added_tables ch) (removed_tables ch) d (removed_columns ch).
Definition with_removed_columns (ch : changes) (d : schema) : changes :=
  mk_changes (added_tables ch) (removed_tables ch) (added_columns ch) d.

Definition no_changes : changes := mk_changes [] [] [] [].

(** ** [diff_schemas] *)

Definition diff_schemas (old new : schema) : option changes :=
  let ch := no_changes in
  (* Find added and removed tables *)
  ch <- for_each (Dict.keys new) (fun table ch =>
          if negb (Dict.mem table old) then
            cols <- Dict.get new table ;;
            Some (with_added_tables ch (Dict.set (added_tables ch) table cols))
          else Some ch) ch ;;
  ch <- for_each (Dict.keys old) (fun table ch =>
          if negb (Dict.mem table new) then
            cols <- Dict.get old table ;;
            Some (with_removed_tables ch
                    (Dict.set (removed_tables ch) table cols))
          else Some ch) ch ;;
  (* Find added and removed columns in existing tables *)
  for_each (Dict.keys new) (fun table ch =>
    if Dict.mem table old then
      new_t <- Dict.get new table ;;
      ch <- for_each (Dict.keys new_t) (fun col ch =>
              old_t <- Dict.get old table ;;
              if negb (Dict.mem col old_t) then
                new_t <- Dict.get new table ;;
                defn <- Dict.get new_t col ;;
                Some (with_added_columns ch
                        (Dict.set_nested (added_columns ch) table col defn))
              else Some ch) ch ;;
      old_t <- Dict.get old table ;;
      for_each (Dict.keys old_t) (fun col ch =>
        new_t <- Dict.get new table ;;
        if negb (Dict.mem col new_t) then
          old_t <- Dict.get old table ;;
          defn <- Dict.get old_t col ;;
          Some (with_removed_columns ch
                  (Dict.set_nested (removed_columns ch) table col defn))
        else Some ch) ch
    else Some ch) ch.

(** ** [generate_migration] *)

Definition nl : string := String "010" EmptyString.

(** [sep.join(xs)]. *)
Fixpoint join (sep : string) (xs : list string) : string :=
  match xs with
  | [] => ""
  | [x] => x
  | x :: xs' => x +++ sep +++ join sep xs'
  end.

(** [up_lines], [down_lines] and [has_changes]. *)
Record render_state : Type := mk_render
  { up_lines : list string;
    down_lines : list string;
    has_changes : bool }.

(** [",\n    ".join(f"{name} {defn}" for name, defn in columns.items())] *)
Definition column_list (cols : columns) : string :=
  join ("," +++ nl +++ "    ")
       (map (fun '(name, defn) => name +++ " " +++ defn) cols).

Definition create_table_stmt (table cols : string) : string :=
  "CREATE TABLE " +++ table +++ " (" +++ nl +++ "    " +++ cols +++ nl +++ ");".

Definition drop_table_stmt (table : string) : string :=
  "DROP TABLE IF EXISTS " +++ table +++ ";".

Definition add_column_stmt (table col defn : string) : string :=
  "ALTER TABLE " +++ table +++ " ADD COLUMN " +++ col +++ " " +++ defn +++ ";".

Definition drop_column_stmt (table col : string) : string :=
  "ALTER TABLE " +++ table +++ " DROP COLUMN " +++ col +++ ";".

Definition sqlite_drop_column_comment (table col : string) : string :=
  "-- SQLite: ALTER TABLE " +++ table +++ " DROP COLUMN " +++ col
    +++ "; (requires SQLite 3.35+)".

(** The state reached in front of [if not has_changes]. *)
Definition render_lines (ch : changes) (dialect : string) : render_state :=
  let st := mk_render ["-- Up"] ["-- Down"] false in
  (* Added tables *)
  let st :=
    fold_left (fun st '(table, columns) =>
      let cols := column_list columns in
      mk_render (up_lines st ++ [create_table_stmt table cols])
                (down_lines st ++ [drop_table_stmt table])
                true) (added_tables ch) st in
  (* Removed tables *)
  let st :=
    fold_left (fun st '(table, columns) =>
      let cols := column_list columns in
      mk_render (up_lines st ++ [drop_table_stmt table])
                (down_lines st ++ [create_table_stmt table cols])
                true) (removed_tables ch) st in
  (* Added columns *)
  let st :=
    fold_left (fun st '(table, columns) =>
      let st := mk_render (up_lines st) (down_lines st) true in
      fold_left (fun st '(col, defn) =>
        let up := up_lines st ++ [add_column_stmt table col defn] in
        if String.eqb dialect "sqlite" then
          mk_render up
            (down_lines st ++ [sqlite_drop_column_comment table col])
            (has_changes st)
        else
          mk_render up (down_lines st ++ [drop_column_stmt table col])
            (has_changes st)) columns st) (added_columns ch) st in
  (* Removed columns *)
  fold_left (fun st '(table, columns) =>
    let st := mk_render (up_lines st) (down_lines st) true in
    fold_left (fun st '(col, defn) =>
      let st :=
        if String.eqb dialect "sqlite" then
          mk_render (up_lines st ++ [sqlite_drop_column_comment table col])
            (down_lines st) (has_changes st)
        else
          mk_render (up_lines st ++ [drop_column_stmt table col])
            (down_lines st) (has_changes st) in
      mk_render (up_lines st)
        (down_lines st ++ [add_column_stmt table col defn])
        (has_changes st)) columns st) (removed_columns ch) st.

Definition generate_migration (ch : changes) (dialect : string) : string :=
  let st := render_lines ch dialect in
  if negb (has_changes st) then "-- No changes detected" +++ nl
  else join nl (up_lines st) +++ nl +++ nl +++ join nl (down_lines st) +++ nl.

(** ** Text primitives used by [parse_schema]

    A [string] stands for a Python [str] of code points below 128, one
    character each, and the character classes and the letter case below
    are Python's on those code points.  Python also has white space,
    word characters and letter case above 127, which these definitions do
    not give; a statement that rests on the verdict of a class for the
    characters of a text assumes [is_ascii] of that text. *)

(** [str.isspace], also the class [\s]. *)
Definition isspace (c : ascii) : bool :=
  let n := nat_of_ascii c in
  ((9 <=? n) && (n <=? 13)) || ((28 <=? n) && (n <=? 32)).

Definition is_lower (c : ascii) : bool :=
  let n := nat_of_ascii c in (97 <=? n) && (n <=? 122).

Definition is_upper (c : ascii) : bool :=
  let n := nat_of_ascii c in (65 <=? n) && (n <=? 90).

Definition is_digit (c : ascii) : bool :=
  let n := nat_of_ascii c in (48 <=? n) && (n <=? 57).

(** The class [\w]. *)
Definition isword (c : ascii) : bool :=
  is_lower c || is_upper c || is_digit c || Ascii.eqb c "_".

Definition upper_char (c : ascii) : ascii :=
  if is_lower c then ascii_of_nat (nat_of_ascii c - 32) else c.

Definition lower_char (c : ascii) : ascii :=
  if is_upper c then ascii_of_nat (nat_of_ascii c + 32) else c.

(** [s.upper()]. *)
Fixpoint upper (s : string) : string :=
  match s with
  | EmptyString => EmptyString
  | String c s' => String (upper_char c) (upper s')
  end.

(** [s.startswith(p)]. *)
Fixpoint startswith (s p : string) : bool :=
  match p, s with
  | EmptyString, _ => true
  | String _ _, EmptyString => false
  | String b p', String a s' => Ascii.eqb a b && startswith s' p'
  end.

Fixpoint lstrip (s : string) : string :=
  match s with
  | EmptyString => EmptyString
  | String c s' => if isspace c then lstrip s' else s
  end.

Fixpoint rstrip (s : string) : string :=
  match s with
  | EmptyString => EmptyString
  | String c s' =>
      match rstrip s' with
      | EmptyString => if isspace c then EmptyString else String c EmptyString
      | r => String c r
      end
  end.

(** [s.strip()]. *)
Definition strip (s : string) : string := rstrip (lstrip s).

(** [s.split(sep)] for a one-character separator: never an empty list. *)
Fixpoint split_on (sep : ascii) (s : string) : list string :=
  match s with
  | EmptyString => [EmptyString]
  | String c s' =>
      if Ascii.eqb c sep then EmptyString :: split_on sep s'
      else
        match split_on sep s' with
        | x :: xs => String c x :: xs
        | [] => [String c EmptyString]
        end
  end.

(** [s.split()]: the maximal runs of characters that are not white space. *)
Fixpoint split_ws (s : string) : list string :=
  match s with
  | EmptyString => []
  | String c s' =>
      if isspace c then split_ws s'
      else
        match s' with
        | EmptyString => [String c EmptyString]
        | String c' _ =>
            if isspace c' then String c EmptyString :: split_ws s'
            else
              match split_ws s' with
              | x :: xs => String c x :: xs
              | [] => [String c EmptyString]
              end
        end
  end.

(** ** The regular expression of [parse_schema]

    The pattern is a sequence of one-character sets, each with a
    quantifier; two of them are capturing groups.  Matching is by
    backtracking in the order of Python's [re]: a greedy quantifier tries
    the longest run first, a lazy one the shortest. *)

Inductive quantifier : Type :=
| One        (* x *)
| Plus       (* x+ *)
| Star       (* x* *)
| LazyStar.  (* x*? *)

Record item : Type := mk_item
  { accepts : ascii -> bool;
    quant : quantifier;
    captures : bool }.

(** The text each item consumed, flagged when the item is a group. *)
Definition matched : Type := list (bool * string).

Definition consume (it : item) (text : string)
    (r : option (matched * string)) : option (matched * string) :=
  match r with
  | Some (m, rest) => Some ((captures it, text) :: m, rest)
  | None => None
  end.

(** Greedy repetition: one more character first, the continuation [k]
    only when that fails. *)
Fixpoint greedy (set : ascii -> bool) (k : string -> option (matched * string))
    (s : string) : option (string * (matched * string)) :=
  let stop :=
    match k s with
    | Some r => Some (EmptyString, r)
    | None => None
    end in
  match s with
  | EmptyString => stop
  | String c s' =>
      if set c then
        match greedy set k s' with
        | Some (text, r) => Some (String c text, r)
        | None => stop
        end
      else stop
  end.

(** Lazy repetition: the continuation [k] first, one more character only
    when that fails. *)
Fixpoint lazy (set : ascii -> bool) (k : string -> option (matched * string))
    (s : string) : option (string * (matched * string)) :=
  match k s with
  | Some r => Some (EmptyString, r)
  | None =>
      match s with
      | EmptyString => None
      | String c s' =>
          if set c then
            match lazy set k s' with
            | Some (text, r) => Some (String c text, r)
            | None => None
            end
          else None
      end
  end.

Definition grouped (it : item) (r : option (string * (matched * string)))
    : option (matched * string) :=
  match r with
  | Some (text, (m, rest)) => Some ((captures it, text) :: m, rest)
  | None => None
  end.

(** [pattern.match(s)] anchored at the head of [s]: the items' texts and
    what follows the match. *)
Fixpoint match_items (items : list item) (s : string)
    : option (matched * string) :=
  match items with
  | [] => Some ([], s)
  | it :: items' =>
      match quant it with
      | One =>
          match s with
          | String c s' =>
              if accepts it c then
                consume it (String c EmptyString) (match_items items' s')
              else None
          | EmptyString => None
          end
      | Plus =>
          match s with
          | String c s' =>
              if accepts it c then
                match greedy (accepts it) (match_items items') s' with
                | Some (text, (m, rest)) =>
                    Some ((captures it, String c text) :: m, rest)
                | None => None
                end
              else None
          | EmptyString => None
          end
      | Star => grouped it (greedy (accepts it) (match_items items') s)
      | LazyStar => grouped it (lazy (accepts it) (match_items items') s)
      end
  end.

(** [m.groups()]. *)
Definition groups (m : matched) : list string :=
  map snd (filter fst m).

(** [pattern.finditer(s)]: leftmost matches, each search resuming where
    the previous match ended. *)
Fixpoint finditer_from (fuel : nat) (items : list item) (s : string)
    : list (list string) :=
  match fuel with
  | O => []
  | S fuel' =>
      match match_items items s with
      | Some (m, rest) => groups m :: finditer_from fuel' items rest
      | None =>
          match s with
          | EmptyString => []
          | String _ s' => finditer_from fuel' items s'
          end
      end
  end.

Definition finditer (items : list item) (s : string) : list (list string) :=
  finditer_from (S (String.length s)) items s.

(** A literal character under [re.IGNORECASE]. *)
Definition lit (x : ascii) : item :=
  mk_item (fun c => Ascii.eqb (lower_char c) (lower_char x)) One false.

Definition literal (s : string) : list item :=
  map lit (list_ascii_of_string s).

(** [.] under [re.DOTALL]. *)
Definition dot (c : ascii) : bool := true.

(** [r'CREATE\s+TABLE\s+(\w+)\s*\((.*?)\);'] with
    [re.DOTALL | re.IGNORECASE]. *)
Definition pattern : list item :=
  literal "CREATE" ++ [mk_item isspace Plus false] ++
  literal "TABLE" ++ [mk_item isspace Plus false] ++
  [mk_item isword Plus true] ++
  [mk_item isspace Star false] ++
  literal "(" ++
  [mk_item dot LazyStar true] ++
  literal ");".

(** ** [parse_schema] *)

Definition constraint_keywords : list string :=
  ["PRIMARY KEY"; "FOREIGN KEY"; "UNIQUE"; "CHECK"; "CONSTRAINT"].

Definition is_empty (s : string) : bool :=
  match s with
  | EmptyString => true
  | String _ _ => false
  end.

(** One turn of [for line in body.split(",")] on the [columns] built so
    far. *)
Definition parse_line (cols : columns) (line : string) : columns :=
  let line := strip line in
  if is_empty line then cols
  else
    (* Skip constraints that aren't column definitions *)
    let upper := upper line in
    if existsb (fun kw => startswith upper kw) constraint_keywords then cols
    else
      let parts := split_ws line in
      if 2 <=? List.length parts then
        match parts with
        | col_name :: rest => Dict.set cols col_name (join " " rest)
        | [] => cols
        end
      else cols.

Definition parse_columns (body : string) : columns :=
  fold_left parse_line (split_on "," body) [].

(** One turn of [for match in pattern.finditer(sql)]. *)
Definition parse_match (tables : schema) (m : list string) : schema :=
  let table_name := nth 0 m EmptyString in
  let body := nth 1 m EmptyString in
  Dict.set tables table_name (parse_columns body).

Definition parse_schema (sql : string) : schema :=
  fold_left parse_match (finditer pattern sql) [].

(** ** Sample inputs *)


Definition sql_users : string :=
  "CREATE TABLE t (id INTEGER PRIMARY KEY, name TEXT);".

(** ** Closed forms of the diff *)

(** The entries of [a] whose key is absent from [b], in [a]'s order. *)
Definition minus {V W : Type} (a : dict V) (b : dict W) : dict V :=
  filter (fun kv => negb (Dict.mem (fst kv) b)) a.

(** A table is listed only once a column was written for it. *)
Definition entry (table : string) (cols : columns) : schema :=
  if Dict.nonempty cols then [(table, cols)] else [].

(** Column changes of the tables of [new] that [old] has too, in the
    table order of [new]: [pick ncols ocols] chooses the columns kept. *)
Definition column_changes (pick : columns -> columns -> columns)
    (old new : schema) : schema :=
  flat_map (fun '(table, ncols) =>
              match Dict.get old table with
              | Some ocols => entry table (pick ncols ocols)
              | None => []
              end) new.

Definition added_columns_of (old new : schema) : schema :=
  column_changes (fun ncols ocols => minus ncols ocols) old new.

Definition removed_columns_of (old new : schema) : schema :=
  column_changes (fun ncols ocols => minus ocols ncols) old new.

(** [xs] lists some elements of [ys] in the order [ys] has them. *)
Fixpoint is_subsequence (xs ys : list string) : bool :=
  match xs, ys with
  | [], _ => true
  | _ :: _, [] => false
  | x :: xs', y :: ys' =>
      if String.eqb x y then is_subsequence xs' ys'
      else is_subsequence xs ys'
  end.

(** The column removals listed in the table order of [old]. *)
Definition removed_columns_in_old_order (old new : schema) : schema :=
  column_changes (fun ocols ncols => minus ocols ncols) new old.

(** Two schemas that list the tables [a] and [b] in opposite orders;
    each table loses a column from [old_ab] to [new_ba]. *)
Definition old_ab : schema :=
  [("a", [("x", "INT"); ("y", "INT")]); ("b", [("z", "INT"); ("w", "TEXT")])].

Definition new_ba : schema :=
  [("b", [("z", "INT"); ("q", "INT")]); ("a", [("x", "INT")]);
   ("c", [("k", "INT")])].

(** ** Closed form of the rendering *)

Definition sentinel : string := "-- No changes detected" +++ nl.

(** The line that drops a column: a comment for the dialect ["sqlite"]. *)
Definition drop_column_line (dialect table col : string) : string :=
  if String.eqb dialect "sqlite" then sqlite_drop_column_comment table col
  else drop_column_stmt table col.

(** The lines of the migration as pairs (Up line, Down line), in the
    order they are appended. *)
Definition statements (ch : changes) (dialect : string)
    : list (string * string) :=
  ("-- Up", "-- Down") ::
  map (fun '(table, cols) =>
         (create_table_stmt table (column_list cols), drop_table_stmt table))
      (added_tables ch) ++
  map (fun '(table, cols) =>
         (drop_table_stmt table, create_table_stmt table (column_list cols)))
      (removed_tables ch) ++
  flat_map (fun '(table, cols) =>
              map (fun '(col, defn) =>
                     (add_column_stmt table col defn,
                      drop_column_line dialect table col)) cols)
           (added_columns ch) ++
  flat_map (fun '(table, cols) =>
              map (fun '(col, defn) =>
                     (drop_column_line dialect table col,
                      add_column_stmt table col defn)) cols)
           (removed_columns ch).

(** Every category of the Change Set is empty. *)
Definition all_empty (ch : changes) : bool :=
  negb (Dict.nonempty (added_tables ch) || Dict.nonempty (removed_tables ch)
        || Dict.nonempty (added_columns ch)
        || Dict.nonempty (removed_columns ch)).

(** Decidable form of the dictionary invariant. *)
Fixpoint distinct (l : list string) : bool :=
  match l with
  | [] => true
  | x :: l' => negb (existsb (String.eqb x) l') && distinct l'
  end.

Definition wf_schemab (s : schema) : bool :=
  distinct (Dict.keys s) && forallb (fun tc => distinct (Dict.keys (snd tc))) s.

(** A Change Set with one added column, and one with one added table of
    two columns. *)
Definition ch_email : changes :=
  mk_changes [] [] [("t", [("email", "TEXT")])] [].

Definition ch_new_table : changes :=
  mk_changes [("t", [("id", "INTEGER"); ("name", "TEXT")])] [] [] [].

(** ** Predicates on text *)

(** Every character of [s] satisfies [p]. *)
Fixpoint string_forallb (p : ascii -> bool) (s : string) : bool :=
  match s with
  | EmptyString => true
  | String c s' => p c && string_forallb p s'
  end.

(** [s.isascii()]: every code point is below 128. *)
Definition is_ascii (s : string) : bool :=
  string_forallb (fun c => nat_of_ascii c <? 128) s.

(** A token of [str.split()]: not empty and free of white space. *)
Definition is_token (s : string) : bool :=
  negb (is_empty s) && string_forallb (fun c => negb (isspace c)) s.

Definition first_nonspace (p : string) : bool :=
  match p with
  | EmptyString => false
  | String b _ => negb (isspace b)
  end.

Fixpoint last_nonspace (p : string) : bool :=
  match p with
  | EmptyString => false
  | String b EmptyString => negb (isspace b)
  | String _ p' => last_nonspace p'
  end.

(** What a successful match says about each item's text. *)
Definition item_matches (it : item) (ft : bool * string) : Prop :=
  fst ft = captures it /\
  string_forallb (accepts it) (snd ft) = true /\
  match quant it with
  | One | Plus => snd ft <> EmptyString
  | Star | LazyStar => True
  end.

(** ** The fragment rule in the specification's words

    The rule of the specification for one fragment of a table body, said
    without the functions of the parser: a fragment is white space, or
    tokens with gaps of white space between them and white space around
    them; it is a constraint when it opens with a keyword in any letter
    case. *)








(** ** Sample schema texts *)

Definition sql_keyword_names : string :=
  "CREATE TABLE t (id INTEGER, checksum INTEGER, unique_id TEXT, constraint_kind TEXT);".

Definition sql_twice : string :=
  "CREATE TABLE t (a INT, b INT); create table u (k INT); CREATE TABLE t (c TEXT);".



(** ** [main]

    The process sees its arguments and the file system, and leaves what
    it printed, its exit status and the file it wrote.  Each of the three
    calls on the file system may raise: [Path.exists] on a path that
    cannot be examined (a name that is too long, a directory that may not
    be searched), [read_text] on what exists but cannot be read as text,
    and [write_text] on a path that cannot be written.  Printing is
    taken to succeed.  [None] as the result of [main] is an exception
    that nothing catches. *)

(** What [exists()] and [read_text()] find at a path; no node is a path
    for which [exists()] is false. *)
Inductive node : Type :=
| File (text : string)   (* exists, and [read_text()] returns [text] *)
| Unreadable             (* exists, and [read_text()] raises *)
| Inaccessible.          (* [exists()] itself raises *)

Record world : Type := mk_world
  { node_at : string -> option node;
    writable : string -> bool }.

Record outcome : Type := mk_outcome
  { stdout : string;
    stderr : string;
    exit_code : nat;
    written : option (string * string) }.

(** The locals [dialect], [dry_run], [output_path] and [files]. *)
Record options : Type := mk_options
  { dialect : string;
    dry_run : bool;
    output_path : option string;
    files : list string }.

Definition default_options : options := mk_options "sqlite" false None [].

(** The [while i < len(args)] loop; an option name with no value after
    it falls through to the last branch. *)
Fixpoint parse_args (args : list string) (o : options) : options :=
  match args with
  | [] => o
  | arg :: rest =>
      match String.eqb arg "--dialect", rest with
      | true, value :: rest' =>
          parse_args rest'
            (mk_options value (dry_run o) (output_path o) (files o))
      | _, _ =>
          if String.eqb arg "--dry-run" then
            parse_args rest
              (mk_options (dialect o) true (output_path o) (files o))
          else
            match String.eqb arg "--output", rest with
            | true, value :: rest' =>
                parse_args rest'
                  (mk_options (dialect o) (dry_run o) (Some value) (files o))
            | _, _ =>
                parse_args rest
                  (mk_options (dialect o) (dry_run o) (output_path o)
                     (files o ++ [arg]))
            end
      end
  end.

(** [print(x)] appends [x] and a newline. *)
Definition print (out x : string) : string := out +++ x +++ nl.

Definition usage : string :=
  let out := "" in
  let out :=
    print out "Usage: run.py [OPTIONS] <old-schema.sql> <new-schema.sql>" in
  let out := print out "" in
  let out := print out "Generate SQL migration by diffing two schema files." in
  let out := print out "" in
  let out := print out "Options:" in
  let out :=
    print out
      "  --dialect DIALECT  SQL dialect: sqlite, postgresql (default: sqlite)"
  in
  let out :=
    print out "  --dry-run          Show changes without generating migration"
  in
  let out := print out "  --output PATH      Write migration to file" in
  print out "  -h, --help         Show this help".

(** The [if dry_run:] block. *)
Definition dry_run_report (ch : changes) : string :=
  let out := print "" "=== DRY RUN ===" in
  let out := print out "" in
  let out :=
    if Dict.nonempty (added_tables ch) then
      print out ("Tables to add: " +++ join ", " (Dict.keys (added_tables ch)))
    else out in
  let out :=
    if Dict.nonempty (removed_tables ch) then
      print out
        ("Tables to remove: " +++ join ", " (Dict.keys (removed_tables ch)))
    else out in
  let out :=
    if Dict.nonempty (added_columns ch) then
      fold_left (fun out '(table, cols) =>
                   print out ("Columns to add in " +++ table +++ ": "
                                +++ join ", " (Dict.keys cols)))
                (added_columns ch) out
    else out in
  if Dict.nonempty (removed_columns ch) then
    fold_left (fun out '(table, cols) =>
                 print out ("Columns to remove from " +++ table +++ ": "
                              +++ join ", " (Dict.keys cols)))
              (removed_columns ch) out
  else out.

(** [x in args]. *)
Definition in_list (x : string) (l : list string) : bool :=
  existsb (String.eqb x) l.

Definition main (args : list string) (w : world) : option outcome :=
  if in_list "--help" args || in_list "-h" args then
    Some (mk_outcome usage "" 0 None)
  else
    let o := parse_args args default_options in
    let files := files o in
    if List.length files <? 2 then
      Some (mk_outcome ""
              (print "" "Error: two schema files required (old and new).")
              1 None)
    else
      let old_path := nth 0 files EmptyString in
      let new_path := nth 1 files EmptyString in
      match node_at w old_path with
      | None =>
          Some (mk_outcome ""
                  (print "" ("Error: file not found: " +++ old_path)) 1 None)
      | Some Inaccessible => None
      | Some old_node =>
          match node_at w new_path with
          | None =>
              Some (mk_outcome ""
                      (print "" ("Error: file not found: " +++ new_path))
                      1 None)
          | Some Inaccessible => None
          | Some new_node =>
              match old_node, new_node with
              | File old_text, File new_text =>
                  let old_schema := parse_schema old_text in
                  let new_schema := parse_schema new_text in
                  changes <- diff_schemas old_schema new_schema ;;
                  let has_changes :=
                    existsb Dict.nonempty
                      [added_tables changes; removed_tables changes;
                       added_columns changes; removed_columns changes] in
                  if negb has_changes then
                    Some (mk_outcome
                            (print "" "No changes detected between schemas.")
                            "" 0 None)
                  else if dry_run o then
                    Some (mk_outcome (dry_run_report changes) "" 0 None)
                  else
                    let migration :=
                      generate_migration changes (dialect o) in
                    match output_path o with
                    | Some path =>
                        if is_empty path then
                          Some (mk_outcome migration "" 0 None)
                        else if writable w path then
                          Some (mk_outcome ""
                                  (print "" ("Migration written to " +++ path))
                                  0 (Some (path, migration)))
                        else None
                    | None => Some (mk_outcome migration "" 0 None)
                    end
              | _, _ => None
              end
          end
      end.

(** ** Predicates for the further properties *)

(** [p in s] for texts: [p] occurs somewhere in [s]. *)
Fixpoint occurs (p s : string) : bool :=
  startswith s p ||
  match s with
  | EmptyString => false
  | String _ s' => occurs p s'
  end.

Definition comma_free (s : string) : bool :=
  string_forallb (fun c => negb (Ascii.eqb c ",")) s.

(** [d.get(t, {})]. *)
Definition columns_of (d : schema) (t : string) : columns :=
  match Dict.get d t with
  | Some cols => cols
  | None => []
  end.

(** The two schemas have the same table names and, table by table, the
    same column names. *)
Definition same_names (old new : schema) : Prop :=
  (forall t, Dict.mem t old = Dict.mem t new) /\
  (forall t ocols ncols,
     Dict.get old t = Some ocols -> Dict.get new t = Some ncols ->
     forall c, Dict.mem c ocols = Dict.mem c ncols).

(** One table whose only column changes its type. *)
Definition schema_id_integer : schema := [("t", [("id", "INTEGER")])].
Definition schema_id_text : schema := [("t", [("id", "TEXT")])].

(** The lines one entry of a Change Set map stands for. *)
Definition create_line (tc : string * columns) : string :=
  create_table_stmt (fst tc) (column_list (snd tc)).

Definition drop_table_line (tc : string * columns) : string :=
  drop_table_stmt (fst tc).

Definition add_column_lines (tc : string * columns) : list string :=
  map (fun cd => add_column_stmt (fst tc) (fst cd) (snd cd)) (snd tc).

Definition drop_column_lines (dialect : string) (tc : string * columns)
    : list string :=
  map (fun cd => drop_column_line dialect (fst tc) (fst cd)) (snd tc).

(** A line that SQL reads as a comment. *)
Definition is_comment (line : string) : bool := startswith line "--".

(** The lines of a text, [s.split("\n")]. *)
Definition lines_of (s : string) : list string := split_on "010" s.

Definition newline_free (s : string) : bool :=
  string_forallb (fun c => negb (Ascii.eqb c "010")) s.

(** The table name and the column names of one entry of a Change Set map
    hold no newline. *)
Definition names_on_one_line (tc : string * columns) : bool :=
  newline_free (fst tc) && forallb (fun cd => newline_free (fst cd)) (snd tc).

(** The ways [main] comes to an end without an exception. *)
Inductive main_shape (args : list string) (w : world) : outcome -> Prop :=
| shape_help :
    main_shape args w (mk_outcome usage "" 0 None)
| shape_too_few :
    main_shape args w
      (mk_outcome ""
         (print "" "Error: two schema files required (old and new).") 1 None)
| shape_missing (path : string) :
    main_shape args w
      (mk_outcome "" (print "" ("Error: file not found: " +++ path)) 1 None)
| shape_same :
    main_shape args w
      (mk_outcome (print "" "No changes detected between schemas.") "" 0 None)
| shape_dry_run (ch : changes) :
    all_empty ch = false ->
    dry_run (parse_args args default_options) = true ->
    main_shape args w (mk_outcome (dry_run_report ch) "" 0 None)
| shape_print (ch : changes) :
    all_empty ch = false ->
    dry_run (parse_args args default_options) = false ->
    main_shape args w
      (mk_outcome
         (generate_migration ch (dialect (parse_args args default_options)))
         "" 0 None)
| shape_write (ch : changes) (path : string) :
    all_empty ch = false ->
    dry_run (parse_args args default_options) = false ->
    output_path (parse_args args default_options) = Some path ->
    path <> EmptyString ->
    writable w path = true ->
    main_shape args w
      (mk_outcome "" (print "" ("Migration written to " +++ path)) 0
         (Some (path,
                generate_migration ch
                  (dialect (parse_args args default_options))))).

(** A world with two schema files. *)
Definition two_files (old_text new_text : string) : world :=
  mk_world (fun path =>
              if String.eqb path "old.sql" then Some (File old_text)
              else if String.eqb path "new.sql" then Some (File new_text)
              else None)
           (fun _ => true).

(** [arg] is one of the three option names the loop of [main] knows. *)
Definition is_option_name (arg : string) : bool :=
  String.eqb arg "--dialect" || String.eqb arg "--dry-run"
  || String.eqb arg "--output".


(** ** Tables that survive rendering *)

Definition semicolon_free (s : string) : bool :=
  string_forallb (fun c => negb (Ascii.eqb c ";")) s.

(** The text of a column inside a CREATE TABLE statement. *)
Definition column_text (cd : string * string) : string :=
  fst cd +++ " " +++ snd cd.

(** A column whose rendered text the parser reads back as it is: the
    name is one token, the definition is already in the form the parser
    gives it (tokens joined by single spaces), neither holds a comma or
    a semicolon, and the rendered text does not begin with a constraint
    keyword. *)
Definition renderable_column (cd : string * string) : bool :=
  is_token (fst cd) && comma_free (fst cd) && semicolon_free (fst cd)
  && (1 <=? List.length (split_ws (snd cd)))
  && String.eqb (join " " (split_ws (snd cd))) (snd cd)
  && comma_free (snd cd) && semicolon_free (snd cd)
  && negb (existsb (fun kw => startswith (upper (column_text cd)) kw)
             constraint_keywords).

(** A table whose name the pattern captures whole. *)
Definition renderable_table (tc : string * columns) : bool :=
  negb (is_empty (fst tc)) && string_forallb isword (fst tc)
  && forallb renderable_column (snd tc).

(** The name, the column names and the definitions of a table are ASCII
    text. *)
Definition ascii_table (tc : string * columns) : bool :=
  is_ascii (fst tc)
  && forallb (fun cd => is_ascii (fst cd) && is_ascii (snd cd)) (snd tc).

(** What the pattern captures between the parentheses of a rendered
    CREATE TABLE statement. *)
Definition table_body (cols : columns) : string :=
  nl +++ "    " +++ column_list cols +++ nl.

(** The groups and the rest of a match, without the texts of the items
    that are no group. *)
Definition match_groups (items : list item) (s : string)
    : option (list string * string) :=
  match match_items items s with
  | Some (m, rest) => Some (groups m, rest)
  | None => None
  end.

(** [s] begins with a character of [set]. *)
Definition starts_in (set : ascii -> bool) (s : string) : bool :=
  match s with
  | EmptyString => false
  | String c _ => set c
  end.

(** The elements of [l] not in [seen], each at its first appearance. *)
Fixpoint first_occurrences (seen l : list string) : list string :=
  match l with
  | [] => []
  | x :: l' =>
      if existsb (String.eqb x) seen then first_occurrences seen l'
      else x :: first_occurrences (seen ++ [x]) l'
  end.

(** The options with [dry_run] set. *)
Definition with_dry_run (o : options) : options :=
  mk_options (dialect o) true (output_path o) (files o).

(** * Properties *)

(** ** Dictionaries *)

Lemma bind_some {A B : Type} (a : A) (k : A -> option B) :
  (x <- Some a ;; k x) = k a.
Proof. reflexivity. Qed.

Lemma get_none_iff {V : Type} (d : dict V) (k : string) :
  Dict.get d k = None <-> ~ In k (Dict.keys d).
Proof.
  induction d as [|[k' v] d IH]; simpl.
  - tauto.
  - destruct (String.eqb_spec k' k) as [->|Hne].
    + split; [discriminate | intros H; exfalso; apply H; now left].
    + rewrite IH. split; [intros H [E|E]; congruence | tauto].
Qed.

Lemma mem_true_iff {V : Type} (d : dict V) (k : string) :
  Dict.mem k d = true <-> In k (Dict.keys d).
Proof.
  unfold Dict.mem. destruct (Dict.get d k) eqn:E.
  - split; [intros _ | reflexivity].
    destruct (in_dec string_dec k (Dict.keys d)) as [H|H]; [exact H|].
    apply get_none_iff in H. congruence.
  - apply get_none_iff in E. split; [discriminate | tauto].
Qed.

Lemma mem_false_iff {V : Type} (d : dict V) (k : string) :
  Dict.mem k d = false <-> ~ In k (Dict.keys d).
Proof.
  rewrite <- mem_true_iff. destruct (Dict.mem k d); split; congruence.
Qed.

Lemma get_In {V : Type} (d : dict V) (k : string) (v : V) :
  Dict.get d k = Some v -> In (k, v) d.
Proof.
  induction d as [|[k' v'] d IH]; simpl; [discriminate|].
  destruct (String.eqb_spec k' k) as [->|Hne].
  - intros [= ->]. now left.
  - intros H. right. auto.
Qed.

Lemma wf_get {V : Type} (d : dict V) (k : string) (v : V) :
  Dict.wf d -> In (k, v) d -> Dict.get d k = Some v.
Proof.
  unfold Dict.wf. induction d as [|[k' v'] d IH]; simpl; [tauto|].
  intros Hnd [E|Hin].
  - injection E as -> ->. now rewrite String.eqb_refl.
  - inversion Hnd as [|? ? Hni Hnd']; subst.
    destruct (String.eqb_spec k' k) as [->|Hne].
    + exfalso. apply Hni. change k with (fst (k, v)). now apply in_map.
    + auto.
Qed.

Lemma set_fresh {V : Type} (d : dict V) (k : string) (v : V) :
  ~ In k (Dict.keys d) -> Dict.set d k v = d ++ [(k, v)].
Proof.
  induction d as [|[k' v'] d IH]; simpl; [reflexivity|].
  intros H. destruct (String.eqb_spec k' k) as [->|Hne]; [tauto|].
  rewrite IH; tauto.
Qed.

Lemma set_last {V : Type} (d : dict V) (k : string) (v v' : V) :
  ~ In k (Dict.keys d) -> Dict.set (d ++ [(k, v)]) k v' = d ++ [(k, v')].
Proof.
  induction d as [|[k' w] d IH]; simpl.
  - now rewrite String.eqb_refl.
  - intros H. destruct (String.eqb_spec k' k) as [->|Hne]; [tauto|].
    rewrite IH; tauto.
Qed.

Lemma get_last {V : Type} (d : dict V) (k : string) (v : V) :
  ~ In k (Dict.keys d) -> Dict.get (d ++ [(k, v)]) k = Some v.
Proof.
  induction d as [|[k' w] d IH]; simpl.
  - now rewrite String.eqb_refl.
  - intros H. destruct (String.eqb_spec k' k) as [->|Hne]; [tauto|].
    apply IH. tauto.
Qed.

Lemma keys_app {V : Type} (a b : dict V) :
  Dict.keys (a ++ b) = Dict.keys a ++ Dict.keys b.
Proof. apply map_app. Qed.

Lemma keys_minus_In {V W : Type} (a : dict V) (b : dict W) (k : string) :
  In k (Dict.keys (minus a b)) <->
  In k (Dict.keys a) /\ ~ In k (Dict.keys b).
Proof.
  rewrite <- mem_false_iff. unfold Dict.keys, minus.
  rewrite !in_map_iff. split.
  - intros [[k' v] [<- H]]. apply filter_In in H as [H1 H2]. simpl in *.
    split.
    + exists (k', v). auto.
    + now apply negb_true_iff in H2.
  - intros [[[k' v] [<- H1]] H2]. exists (k', v). split; [reflexivity|].
    apply filter_In. split; [exact H1|]. simpl in *.
    now apply negb_true_iff.
Qed.

Lemma set_nested_entry (base : schema) (table col defn : string)
    (acc : columns) :
  ~ In table (Dict.keys base) -> ~ In col (Dict.keys acc) ->
  Dict.set_nested (base ++ entry table acc) table col defn =
  base ++ [(table, acc ++ [(col, defn)])].
Proof.
  unfold schema, columns in *.
  intros Ht Hc. unfold Dict.set_nested, Dict.setdefault, entry.
  destruct acc as [|kv acc]; simpl Dict.nonempty; cbv iota.
  - rewrite app_nil_r.
    destruct (Dict.get base table) as [d|] eqn:Hg.
    + apply get_In in Hg. exfalso. apply Ht.
      change table with (fst (table, d)). now apply in_map.
    + rewrite (set_fresh base) by exact Ht. now rewrite set_last.
  - rewrite get_last by exact Ht.
    rewrite set_last by exact Ht. now rewrite set_fresh by exact Hc.
Qed.

(** ** Loops *)

Lemma for_each_ext {A S : Type} (xs : list A) (f g : A -> S -> option S) :
  (forall x s, In x xs -> f x s = g x s) ->
  forall s, for_each xs f s = for_each xs g s.
Proof.
  induction xs as [|x xs IH]; intros H s; simpl; [reflexivity|].
  rewrite (H x s) by now left. destruct (g x s); simpl; [|reflexivity].
  apply IH. intros y t Hy. apply H. now right.
Qed.

Section Field.
Context {A S T : Type} (proj : S -> T) (upd : S -> T -> S).
Hypothesis proj_upd : forall s t, proj (upd s t) = t.
Hypothesis upd_upd : forall s t t', upd (upd s t) t' = upd s t'.
Hypothesis upd_proj : forall s, upd s (proj s) = s.

(** A loop that writes one field of the state is a loop on that field. *)
Lemma for_each_field (xs : list A) (f : A -> T -> option T) (s : S) :
  for_each xs (fun x s => t <- f x (proj s) ;; Some (upd s t)) s =
  (t <- for_each xs f (proj s) ;; Some (upd s t)).
Proof.
  revert s. induction xs as [|x xs IH]; intros s; simpl.
  - now rewrite upd_proj.
  - destruct (f x (proj s)) as [t|]; simpl; [|reflexivity].
    rewrite IH, proj_upd. destruct (for_each xs f t); simpl; [|reflexivity].
    now rewrite upd_upd.
Qed.
End Field.

(** ** The loops of [diff_schemas] *)

(** [for table in l: if table not in other: d[table] = src[table]] *)
Lemma tables_loop {W : Type} (src : schema) (other : dict W) (l : schema) :
  (forall k v, In (k, v) l -> Dict.get src k = Some v) ->
  NoDup (Dict.keys l) ->
  forall d : schema,
  (forall k, In k (Dict.keys l) -> ~ In k (Dict.keys d)) ->
  for_each (Dict.keys l)
    (fun table d =>
       if negb (Dict.mem table other) then
         cols <- Dict.get src table ;; Some (Dict.set d table cols)
       else Some d) d
  = Some (d ++ minus l other).
Proof.
  induction l as [|[k v] l IH]; intros Hsrc Hnd d Hd; simpl.
  - now rewrite app_nil_r.
  - inversion Hnd as [|? ? Hk Hnd']; subst.
    assert (IHl := IH (fun k' v' H => Hsrc k' v' (or_intror H)) Hnd').
    unfold minus in *. simpl. destruct (Dict.mem k other); simpl.
    + apply IHl. intros k' Hk'. apply Hd. now right.
    + rewrite (Hsrc k v) by now left. simpl.
      rewrite set_fresh by (apply Hd; now left).
      rewrite IHl.
      * now rewrite <- app_assoc.
      * intros k' Hk'. rewrite keys_app, in_app_iff. simpl.
        intros [H|[H|[]]]; [apply (Hd k'); [now right | exact H] | congruence].
Qed.

Lemma entry_snoc (table : string) (acc : columns) (cd : string * string) :
  entry table (acc ++ [cd]) = [(table, acc ++ [cd])].
Proof. unfold entry. now destruct acc. Qed.

Lemma keys_entry (table k : string) (cols : columns) :
  In k (Dict.keys (entry table cols)) -> k = table.
Proof.
  unfold entry. destruct (Dict.nonempty cols); simpl; [|tauto].
  intros [H|[]]. now symmetry.
Qed.

(** [for col in l: if col not in other:
      d.setdefault(table, {})[col] = src[col]] *)
Lemma columns_loop (table : string) (src other : columns) (base : schema)
    (l : columns) :
  ~ In table (Dict.keys base) ->
  (forall c v, In (c, v) l -> Dict.get src c = Some v) ->
  NoDup (Dict.keys l) ->
  forall acc : columns,
  (forall c, In c (Dict.keys l) -> ~ In c (Dict.keys acc)) ->
  for_each (Dict.keys l)
    (fun col d =>
       if negb (Dict.mem col other) then
         defn <- Dict.get src col ;;
         Some (Dict.set_nested d table col defn)
       else Some d) (base ++ entry table acc)
  = Some (base ++ entry table (acc ++ minus l other)).
Proof.
  intros Ht. induction l as [|[c v] l IH]; intros Hsrc Hnd acc Hacc; simpl.
  - now rewrite app_nil_r.
  - inversion Hnd as [|? ? Hc Hnd']; subst.
    assert (IHl := IH (fun c' v' H => Hsrc c' v' (or_intror H)) Hnd').
    unfold minus in *. simpl. destruct (Dict.mem c other); simpl.
    + apply IHl. intros c' Hc'. apply Hacc. now right.
    + rewrite (Hsrc c v) by now left. simpl.
      rewrite set_nested_entry by (try exact Ht; apply Hacc; now left).
      rewrite <- entry_snoc, IHl.
      * now rewrite <- app_assoc.
      * intros c' Hc'. rewrite keys_app, in_app_iff. simpl.
        intros [H|[H|[]]]; [apply (Hacc c'); [now right | exact H] | congruence].
Qed.

Lemma wf_schema_get (s : schema) (table : string) (cols : columns) :
  wf_schema s -> Dict.get s table = Some cols -> Dict.wf cols.
Proof.
  intros [_ Hall] Hg. apply get_In in Hg.
  rewrite Forall_forall in Hall. exact (Hall _ Hg).
Qed.

(** The third loop of [diff_schemas], run over the tables [l] of [new]. *)
Lemma columns_pass (old new : schema) (l : schema) :
  wf_schema old ->
  (forall k v, In (k, v) l -> Dict.get new k = Some v) ->
  Forall (fun tc => Dict.wf (snd tc)) l ->
  NoDup (Dict.keys l) ->
  forall ch : changes,
  (forall k, In k (Dict.keys l) ->
     ~ In k (Dict.keys (added_columns ch)) /\
     ~ In k (Dict.keys (removed_columns ch))) ->
  for_each (Dict.keys l) (fun table ch =>
    if Dict.mem table old then
      new_t <- Dict.get new table ;;
      ch <- for_each (Dict.keys new_t) (fun col ch =>
              old_t <- Dict.get old table ;;
              if negb (Dict.mem col old_t) then
                new_t <- Dict.get new table ;;
                defn <- Dict.get new_t col ;;
                Some (with_added_columns ch
                        (Dict.set_nested (added_columns ch) table col defn))
              else Some ch) ch ;;
      old_t <- Dict.get old table ;;
      for_each (Dict.keys old_t) (fun col ch =>
        new_t <- Dict.get new table ;;
        if negb (Dict.mem col new_t) then
          old_t <- Dict.get old table ;;
          defn <- Dict.get old_t col ;;
          Some (with_removed_columns ch
                  (Dict.set_nested (removed_columns ch) table col defn))
        else Some ch) ch
    else Some ch) ch
  = Some (mk_changes (added_tables ch) (removed_tables ch)
            (added_columns ch ++ added_columns_of old l)
            (removed_columns ch ++ removed_columns_of old l)).
Proof.
  intros Hold. induction l as [|[table ncols] l IH];
    intros Hnew Hwf Hnd ch Hch; simpl.
  - rewrite !app_nil_r. now destruct ch.
  - inversion Hnd as [|? ? Ht Hnd']; subst.
    inversion Hwf as [|? ? Hncols Hwf']; subst. simpl in Hncols.
    assert (IHl := IH (fun k v H => Hnew k v (or_intror H)) Hwf' Hnd').
    clear IH.
    destruct (Hch table (or_introl eq_refl)) as [Hta Htr].
    unfold Dict.mem at 1.
    destruct (Dict.get old table) as [ocols|] eqn:Hgo.
    + rewrite (Hnew table ncols) by now left. simpl.
      assert (Hocols : Dict.wf ocols) by exact (wf_schema_get _ _ _ Hold Hgo).
      (* added columns *)
      pose (fa := (fun col d =>
                     if negb (Dict.mem col ocols) then
                       defn <- Dict.get ncols col ;;
                       Some (Dict.set_nested d table col defn)
                     else Some d) : string -> schema -> option schema).
      rewrite (for_each_ext (Dict.keys ncols) _
        (fun col ch =>
           t <- fa col (added_columns ch) ;; Some (with_added_columns ch t))).
      2:{ intros col s _. unfold fa. simpl.
          destruct (Dict.mem col ocols); simpl; [now destruct s|].
          destruct (Dict.get ncols col); reflexivity. }
      rewrite (for_each_field added_columns with_added_columns
                 ltac:(reflexivity) ltac:(reflexivity) ltac:(now intros [])
                 (Dict.keys ncols) fa ch).
      subst fa.
      rewrite <- (app_nil_r (added_columns ch)) at 1.
      change (@nil (string * columns)) with (entry table []) at 1.
      rewrite columns_loop;
        [ | exact Hta | intros c v; apply wf_get; exact Hncols
          | exact Hncols | intros c _ [] ].
      simpl.
      (* removed columns *)
      pose (fr := (fun col d =>
                     if negb (Dict.mem col ncols) then
                       defn <- Dict.get ocols col ;;
                       Some (Dict.set_nested d table col defn)
                     else Some d) : string -> schema -> option schema).
      rewrite (for_each_ext (Dict.keys ocols) _
        (fun col ch =>
           t <- fr col (removed_columns ch) ;;
           Some (with_removed_columns ch t))).
      2:{ intros col s _. unfold fr. simpl.
          destruct (Dict.mem col ncols); simpl; [now destruct s|].
          destruct (Dict.get ocols col); reflexivity. }
      rewrite (for_each_field removed_columns with_removed_columns
                 ltac:(reflexivity) ltac:(reflexivity) ltac:(now intros [])).
      subst fr. simpl.
      rewrite <- (app_nil_r (removed_columns ch)) at 1.
      change (@nil (string * columns)) with (entry table []) at 1.
      rewrite columns_loop;
        [ | exact Htr | intros c v; apply wf_get; exact Hocols
          | exact Hocols | intros c _ [] ].
      simpl. rewrite IHl.
      * simpl. unfold added_columns_of, removed_columns_of, column_changes.
        simpl. rewrite <- !app_assoc. reflexivity.
      * intros k Hk. simpl. rewrite !keys_app, !in_app_iff.
        destruct (Hch k (or_intror Hk)) as [Hka Hkr].
        split; (intros [H|H]; [tauto|]); apply keys_entry in H; congruence.
    + simpl. rewrite IHl.
      * reflexivity.
      * intros k Hk. apply Hch. now right.
Qed.

Section TableField.
Context {S : Type} (proj : S -> schema) (upd : S -> schema -> S).
Hypothesis proj_upd : forall s t, proj (upd s t) = t.
Hypothesis upd_upd : forall s t t', upd (upd s t) t' = upd s t'.
Hypothesis upd_proj : forall s, upd s (proj s) = s.

(** The first two loops of [diff_schemas], each on its own field. *)
Lemma tables_pass {W : Type} (src : schema) (other : dict W) (s : S) :
  Dict.wf src -> proj s = [] ->
  for_each (Dict.keys src)
    (fun table s =>
       if negb (Dict.mem table other) then
         cols <- Dict.get src table ;;
         Some (upd s (Dict.set (proj s) table cols))
       else Some s) s
  = Some (upd s (minus src other)).
Proof.
  intros Hwf Hnil.
  pose (f := (fun table d =>
                if negb (Dict.mem table other) then
                  cols <- Dict.get src table ;; Some (Dict.set d table cols)
                else Some d) : string -> schema -> option schema).
  rewrite (for_each_ext (Dict.keys src) _
             (fun table s => t <- f table (proj s) ;; Some (upd s t))).
  2:{ intros table s0 _. unfold f.
      destruct (Dict.mem table other); simpl; [now rewrite upd_proj|].
      destruct (Dict.get src table); reflexivity. }
  rewrite (for_each_field proj upd proj_upd upd_upd upd_proj).
  subst f.
  rewrite tables_loop.
  - simpl. now rewrite Hnil.
  - intros k v. now apply wf_get.
  - exact Hwf.
  - rewrite Hnil. intros k _ [].
Qed.
End TableField.

(** Under the dictionary invariant the diff has a closed form: table
    changes are the entries of one schema absent from the other, column
    changes are listed in the table order of [new]. *)
Lemma diff_schemas_closed (old new : schema) :
  wf_schema old -> wf_schema new ->
  diff_schemas old new =
  Some (mk_changes (minus new old) (minus old new)
          (added_columns_of old new) (removed_columns_of old new)).
Proof.
  intros Hold Hnew. unfold diff_schemas.
  rewrite (tables_pass added_tables with_added_tables
             ltac:(reflexivity) ltac:(reflexivity) ltac:(now intros []))
    by (try reflexivity; apply Hnew).
  rewrite bind_some.
  rewrite (tables_pass removed_tables with_removed_tables
             ltac:(reflexivity) ltac:(reflexivity) ltac:(now intros []))
    by (try reflexivity; apply Hold).
  rewrite bind_some.
  rewrite columns_pass.
  - reflexivity.
  - exact Hold.
  - intros k v. apply wf_get, Hnew.
  - apply Hnew.
  - apply Hnew.
  - intros k _. simpl. tauto.
Qed.

Lemma for_each_skip {A S : Type} (xs : list A) (f : A -> S -> option S) :
  (forall x s, In x xs -> f x s = Some s) ->
  forall s, for_each xs f s = Some s.
Proof.
  induction xs as [|x xs IH]; intros H s; simpl; [reflexivity|].
  rewrite (H x s) by now left. simpl. apply IH.
  intros y t Hy. apply H. now right.
Qed.

(** ** The loops of [generate_migration] *)

Lemma fold_left_lines {X : Type} (P : X -> string * string)
    (step : render_state -> X -> render_state) (l : list X) :
  (forall st x,
     step st x = mk_render (up_lines st ++ [fst (P x)])
                           (down_lines st ++ [snd (P x)]) (has_changes st)) ->
  forall st,
  fold_left step l st =
  mk_render (up_lines st ++ map fst (map P l))
            (down_lines st ++ map snd (map P l)) (has_changes st).
Proof.
  intros Hstep. induction l as [|x l IH]; intros st; simpl.
  - rewrite !app_nil_r. now destruct st.
  - rewrite IH, Hstep. simpl. now rewrite <- !app_assoc.
Qed.

Lemma fold_left_blocks {X : Type} (P : X -> list (string * string))
    (step : render_state -> X -> render_state) (l : list X) :
  (forall st x,
     step st x = mk_render (up_lines st ++ map fst (P x))
                           (down_lines st ++ map snd (P x)) true) ->
  forall st,
  fold_left step l st =
  mk_render (up_lines st ++ map fst (flat_map P l))
            (down_lines st ++ map snd (flat_map P l))
            (has_changes st || match l with [] => false | _ => true end).
Proof.
  intros Hstep. induction l as [|x l IH]; intros st; simpl.
  - rewrite !app_nil_r, orb_false_r. now destruct st.
  - rewrite IH, Hstep. simpl. rewrite !map_app, <- !app_assoc, orb_true_r.
    reflexivity.
Qed.

Lemma flat_map_single {X Y : Type} (f : X -> list Y) (g : X -> Y)
    (l : list X) :
  (forall x, f x = [g x]) -> flat_map f l = map g l.
Proof.
  intros H. induction l as [|x l IH]; simpl; [reflexivity|].
  now rewrite H, IH.
Qed.

Lemma render_lines_closed (ch : changes) (dialect : string) :
  render_lines ch dialect =
  mk_render (map fst (statements ch dialect))
            (map snd (statements ch dialect)) (negb (all_empty ch)).
Proof.
  unfold render_lines, statements, all_empty.
  rewrite (fold_left_blocks
             (fun '(table, cols) =>
                map (fun '(col, defn) =>
                       (drop_column_line dialect table col,
                        add_column_stmt table col defn)) cols)).
  2:{ intros st [table cols].
      rewrite (fold_left_lines
                 (fun '(col, defn) =>
                    (drop_column_line dialect table col,
                     add_column_stmt table col defn)));
        [reflexivity|].
      intros st' [col defn]. unfold drop_column_line. simpl.
      now destruct (String.eqb dialect "sqlite"). }
  rewrite (fold_left_blocks
             (fun '(table, cols) =>
                map (fun '(col, defn) =>
                       (add_column_stmt table col defn,
                        drop_column_line dialect table col)) cols)).
  2:{ intros st [table cols].
      rewrite (fold_left_lines
                 (fun '(col, defn) =>
                    (add_column_stmt table col defn,
                     drop_column_line dialect table col)));
        [reflexivity|].
      intros st' [col defn]. unfold drop_column_line. simpl.
      now destruct (String.eqb dialect "sqlite"). }
  rewrite (fold_left_blocks
             (fun '(table, cols) =>
                [(drop_table_stmt table,
                  create_table_stmt table (column_list cols))]))
    by (intros st [table cols]; reflexivity).
  rewrite (fold_left_blocks
             (fun '(table, cols) =>
                [(create_table_stmt table (column_list cols),
                  drop_table_stmt table)]))
    by (intros st [table cols]; reflexivity).
  cbn [up_lines down_lines has_changes].
  rewrite !(flat_map_single
              (fun '(table, cols) =>
                 [(create_table_stmt table (column_list cols),
                   drop_table_stmt table)])
              (fun '(table, cols) =>
                 (create_table_stmt table (column_list cols),
                  drop_table_stmt table)))
    by (intros []; reflexivity).
  rewrite !(flat_map_single
              (fun '(table, cols) =>
                 [(drop_table_stmt table,
                   create_table_stmt table (column_list cols))])
              (fun '(table, cols) =>
                 (drop_table_stmt table,
                  create_table_stmt table (column_list cols))))
    by (intros []; reflexivity).
  rewrite negb_involutive. simpl. rewrite ?map_app, <- ?app_assoc.
  reflexivity.
Qed.

(** ** The dictionary invariant *)

Lemma distinct_NoDup (l : list string) : distinct l = true -> NoDup l.
Proof.
  induction l as [|x l IH]; simpl; intros H; constructor.
  - apply andb_true_iff in H as [H _]. apply negb_true_iff in H.
    intros Hin. assert (E : existsb (String.eqb x) l = true).
    { apply existsb_exists. exists x. split; [exact Hin|].
      apply String.eqb_refl. }
    congruence.
  - apply IH. now apply andb_true_iff in H as [_ H].
Qed.

Lemma wf_schemab_sound (s : schema) : wf_schemab s = true -> wf_schema s.
Proof.
  unfold wf_schemab, wf_schema, Dict.wf. intros H.
  apply andb_true_iff in H as [H1 H2]. split.
  - now apply distinct_NoDup.
  - apply Forall_forall. intros tc Hin. apply distinct_NoDup.
    rewrite forallb_forall in H2. now apply H2.
Qed.

Lemma wf_minus {V W : Type} (a : dict V) (b : dict W) :
  Dict.wf a -> Dict.wf (minus a b).
Proof.
  unfold Dict.wf, Dict.keys, minus.
  induction a as [|[k v] a IH]; simpl; intros H; [constructor|].
  inversion H as [|? ? Hk Hnd]; subst.
  destruct (negb (Dict.mem k b)); simpl; [|auto].
  constructor; [|auto].
  intros Hin. apply Hk. apply in_map_iff in Hin as [[k' v'] [E Hin]].
  apply filter_In in Hin as [Hin _]. simpl in E. subst k'.
  change k with (fst (k, v')). now apply in_map.
Qed.

(** ** Column changes as a set of entries *)

Lemma In_entry (table t : string) (cols cs : columns) :
  In (t, cs) (entry table cols) <-> t = table /\ cs = cols /\ cols <> [].
Proof.
  unfold entry. destruct cols as [|cd cols]; simpl.
  - split; [tauto | intros (_ & _ & H); congruence].
  - split.
    + intros [[= <- <-]|[]]. repeat split. discriminate.
    + intros (-> & -> & _). now left.
Qed.

Lemma In_column_changes (pick : columns -> columns -> columns)
    (other l : schema) (t : string) (cs : columns) :
  In (t, cs) (column_changes pick other l) <->
  exists lc oc, In (t, lc) l /\ Dict.get other t = Some oc /\
                cs = pick lc oc /\ cs <> [].
Proof.
  unfold column_changes. rewrite in_flat_map. split.
  - intros [[t' lc] [Hin H]].
    destruct (Dict.get other t') as [oc|] eqn:Hg; [|destruct H].
    apply In_entry in H as (-> & -> & Hne). now exists lc, oc.
  - intros (lc & oc & Hin & Hg & -> & Hne). exists (t, lc).
    split; [exact Hin|]. rewrite Hg. now apply In_entry.
Qed.

Lemma keys_column_changes (pick : columns -> columns -> columns)
    (other l : schema) (t : string) :
  In t (Dict.keys (column_changes pick other l)) -> In t (Dict.keys l).
Proof.
  unfold Dict.keys. rewrite !in_map_iff. intros [[t' cs] [E H]].
  simpl in E. subst t'. apply In_column_changes in H as (lc & _ & H & _).
  now exists (t, lc).
Qed.

Lemma wf_column_changes (pick : columns -> columns -> columns)
    (other l : schema) :
  Dict.wf l -> Dict.wf (column_changes pick other l).
Proof.
  unfold Dict.wf. induction l as [|[t lc] l IH]; simpl; intros H;
    [constructor|].
  inversion H as [|? ? Ht Hnd]; subst.
  destruct (Dict.get other t) as [oc|]; [|now apply IH].
  unfold entry. destruct (Dict.nonempty (pick lc oc)); [|now apply IH].
  simpl. constructor; [|now apply IH].
  intros Hin. apply Ht. exact (keys_column_changes _ _ _ _ Hin).
Qed.

(** Listing the same column changes while walking the other schema gives
    the same entries, in another order. *)
Lemma column_changes_swap (pick : columns -> columns -> columns)
    (a b : schema) :
  Dict.wf a -> Dict.wf b ->
  Permutation (column_changes pick b a)
              (column_changes (fun x y => pick y x) a b).
Proof.
  intros Ha Hb. apply NoDup_Permutation.
  - eapply NoDup_map_inv. apply (wf_column_changes pick b a Ha).
  - eapply NoDup_map_inv.
    apply (wf_column_changes (fun x y => pick y x) a b Hb).
  - intros [t cs]. rewrite !In_column_changes. split.
    + intros (lc & oc & Hin & Hg & E & Hne). exists oc, lc.
      repeat split; auto.
      * now apply get_In.
      * now apply wf_get.
    + intros (lc & oc & Hin & Hg & E & Hne). exists oc, lc.
      repeat split; auto.
      * now apply get_In.
      * now apply wf_get.
Qed.

(** ** Python equality of dictionaries *)

Lemma dict_eqb_perm {V : Type} (veqb : V -> V -> bool) (a b : dict V) :
  Permutation a b -> Dict.wf b ->
  (forall k v, In (k, v) a -> veqb v v = true) ->
  Dict.eqb veqb a b = true.
Proof.
  intros Hp Hwf Hrefl. unfold Dict.eqb. apply andb_true_iff. split.
  - apply Nat.eqb_eq. now apply Permutation_length.
  - apply forallb_forall. intros [k v] Hin.
    rewrite (wf_get b k v Hwf) by (eapply Permutation_in; eassumption).
    now apply (Hrefl k).
Qed.

Lemma columns_eqb_refl (c : columns) : Dict.wf c -> columns_eqb c c = true.
Proof.
  intros H. apply dict_eqb_perm; [apply Permutation_refl | exact H |].
  intros k v _. apply String.eqb_refl.
Qed.

(** ** Order of the keys *)

Lemma is_subsequence_tail (ys : list string) :
  forall x xs, is_subsequence (x :: xs) ys = true ->
               is_subsequence xs ys = true.
Proof.
  induction ys as [|y ys IH]; intros x xs; simpl; [discriminate|].
  assert (Hcons : forall zs, is_subsequence zs ys = true ->
                             is_subsequence zs (y :: ys) = true).
  { intros [|z zs]; simpl; [reflexivity|]. intros H.
    destruct (String.eqb z y); [now apply (IH z)|exact H]. }
  destruct (String.eqb x y); intros H; apply Hcons; [exact H|].
  now apply (IH x).
Qed.

Lemma is_subsequence_skip (xs ys : list string) (y : string) :
  is_subsequence xs ys = true -> is_subsequence xs (y :: ys) = true.
Proof.
  destruct xs as [|x xs]; simpl; [reflexivity|]. intros H.
  destruct (String.eqb x y); [now apply (is_subsequence_tail ys x)|exact H].
Qed.

Lemma is_subsequence_minus {V W : Type} (a : dict V) (b : dict W) :
  is_subsequence (Dict.keys (minus a b)) (Dict.keys a) = true.
Proof.
  unfold minus. induction a as [|[k v] a IH]; simpl; [reflexivity|].
  destruct (negb (Dict.mem k b)); simpl.
  - now rewrite String.eqb_refl.
  - now apply is_subsequence_skip.
Qed.

Lemma is_subsequence_column_changes (pick : columns -> columns -> columns)
    (other l : schema) :
  is_subsequence (Dict.keys (column_changes pick other l)) (Dict.keys l)
  = true.
Proof.
  induction l as [|[t lc] l IH]; simpl; [reflexivity|].
  destruct (Dict.get other t) as [oc|].
  - unfold entry. destruct (Dict.nonempty (pick lc oc)); simpl.
    + now rewrite String.eqb_refl.
    + now apply is_subsequence_skip.
  - now apply is_subsequence_skip.
Qed.

(** ** Properties of [diff_schemas] *)

(** C1. Swapping the two schemas swaps the table maps and the column
    maps of the Change Set: the table maps are the very same
    dictionaries, the column maps hold the same entries (they compare
    equal with Python's [==]; only the order of their tables may
    differ). *)
Theorem diff_schemas_antisymmetric (old new : schema) :
  wf_schema old -> wf_schema new ->
  exists fwd bwd,
    diff_schemas old new = Some fwd /\
    diff_schemas new old = Some bwd /\
    added_tables bwd = removed_tables fwd /\
    removed_tables bwd = added_tables fwd /\
    schema_eqb (added_columns bwd) (removed_columns fwd) = true /\
    schema_eqb (removed_columns bwd) (added_columns fwd) = true /\
    Permutation (added_columns bwd) (removed_columns fwd) /\
    Permutation (removed_columns bwd) (added_columns fwd).
Proof.
  intros Hold Hnew.
  rewrite (diff_schemas_closed old new Hold Hnew).
  rewrite (diff_schemas_closed new old Hnew Hold).
  do 2 eexists. do 4 (split; [reflexivity|]). simpl.
  assert (Hcols : forall (a b : schema) pick t cs,
             wf_schema a -> wf_schema b ->
             (forall x y, Dict.wf x -> Dict.wf (pick x y)) ->
             In (t, cs) (column_changes pick b a) -> columns_eqb cs cs = true).
  { intros a b pick t cs Ha Hb Hpick Hin.
    apply In_column_changes in Hin as (lc & oc & Hin & _ & -> & _).
    apply columns_eqb_refl, Hpick.
    destruct Ha as [_ Ha]. rewrite Forall_forall in Ha. exact (Ha _ Hin). }
  assert (P1 : Permutation (added_columns_of new old)
                           (removed_columns_of old new))
    by (apply (column_changes_swap (fun x y => minus x y)); [apply Hold | apply Hnew]).
  assert (P2 : Permutation (removed_columns_of new old)
                           (added_columns_of old new))
    by (apply (column_changes_swap (fun x y => minus y x)); [apply Hold | apply Hnew]).
  repeat split; try assumption.
  - apply dict_eqb_perm; [exact P1 | apply wf_column_changes, Hnew |].
    intros t cs. apply (Hcols old new); auto.
    intros x y. apply wf_minus.
  - apply dict_eqb_perm; [exact P2 | apply wf_column_changes, Hnew |].
    intros t cs Hin.
    apply In_column_changes in Hin as (lc & oc & _ & Hg & -> & _).
    apply columns_eqb_refl, wf_minus. exact (wf_schema_get _ _ _ Hnew Hg).
Qed.

Lemma diff_schemas_antisymmetric_witness :
  wf_schema old_ab /\ wf_schema new_ba /\
  exists fwd bwd,
    diff_schemas old_ab new_ba = Some fwd /\
    diff_schemas new_ba old_ab = Some bwd /\
    added_tables bwd = removed_tables fwd /\
    removed_tables bwd = added_tables fwd /\
    schema_eqb (added_columns bwd) (removed_columns fwd) = true /\
    schema_eqb (removed_columns bwd) (added_columns fwd) = true /\
    Permutation (added_columns bwd) (removed_columns fwd) /\
    Permutation (removed_columns bwd) (added_columns fwd).
Proof.
  split; [apply wf_schemab_sound; reflexivity|].
  split; [apply wf_schemab_sound; reflexivity|].
  apply (diff_schemas_antisymmetric old_ab new_ba);
    apply wf_schemab_sound; reflexivity.
Defined.

(** C3, as stated, fails: the removed columns are listed in the table
    order of the new schema.  Here [old] lists [a] before [b], [new]
    lists [b] before [a], and the removals come out as [b], [a]. *)
Lemma removed_columns_not_in_old_table_order :
  exists ch,
    diff_schemas old_ab new_ba = Some ch /\
    Dict.keys old_ab = ["a"; "b"] /\
    Dict.keys (removed_columns ch) = ["b"; "a"] /\
    is_subsequence (Dict.keys (removed_columns ch)) (Dict.keys old_ab)
    = false /\
    removed_columns ch <> removed_columns_in_old_order old_ab new_ba.
Proof.
  eexists. split; [reflexivity|]. repeat split; discriminate.
Qed.

(** C3, amended.  Added and removed columns are both listed table by
    table in the insertion order of the new schema's tables (the tables
    the old schema has too and that changed); within a table the added
    columns keep the new schema's column order and the removed columns
    the old schema's column order.  The result is a function of the two
    inputs. *)
Theorem column_changes_follow_new_table_order (old new : schema) :
  wf_schema old -> wf_schema new ->
  exists ch,
    diff_schemas old new = Some ch /\
    added_columns ch = added_columns_of old new /\
    removed_columns ch = removed_columns_of old new /\
    is_subsequence (Dict.keys (added_columns ch)) (Dict.keys new) = true /\
    is_subsequence (Dict.keys (removed_columns ch)) (Dict.keys new) = true /\
    (forall t cs, In (t, cs) (added_columns ch) ->
       exists ocols ncols,
         Dict.get old t = Some ocols /\ Dict.get new t = Some ncols /\
         cs = minus ncols ocols /\
         is_subsequence (Dict.keys cs) (Dict.keys ncols) = true) /\
    (forall t cs, In (t, cs) (removed_columns ch) ->
       exists ocols ncols,
         Dict.get old t = Some ocols /\ Dict.get new t = Some ncols /\
         cs = minus ocols ncols /\
         is_subsequence (Dict.keys cs) (Dict.keys ocols) = true).
Proof.
  intros Hold Hnew. rewrite (diff_schemas_closed old new Hold Hnew).
  eexists. split; [reflexivity|]. simpl.
  do 2 (split; [reflexivity|]).
  do 2 (split; [apply is_subsequence_column_changes|]).
  split; intros t cs Hin;
    apply In_column_changes in Hin as (lc & oc & Hin & Hg & -> & _);
    exists oc, lc; (split; [exact Hg|]);
    (split; [apply wf_get; [apply Hnew | exact Hin]|]);
    (split; [reflexivity | apply is_subsequence_minus]).
Qed.

Lemma column_changes_follow_new_table_order_witness :
  wf_schema old_ab /\ wf_schema new_ba /\
  exists ch,
    diff_schemas old_ab new_ba = Some ch /\
    added_columns ch = [("b", [("q", "INT")])] /\
    removed_columns ch = [("b", [("w", "TEXT")]); ("a", [("y", "INT")])].
Proof.
  assert (Hold : wf_schema old_ab) by (apply wf_schemab_sound; reflexivity).
  assert (Hnew : wf_schema new_ba) by (apply wf_schemab_sound; reflexivity).
  split; [exact Hold|]. split; [exact Hnew|].
  destruct (column_changes_follow_new_table_order old_ab new_ba Hold Hnew)
    as (ch & Hd & Ha & Hr & _).
  exists ch. split; [exact Hd|]. split; [exact Ha | exact Hr].
Defined.

(** Diffing a schema against itself changes nothing, whatever the
    schema. *)
Lemma diff_schemas_same (s : schema) : diff_schemas s s = Some no_changes.
Proof.
  unfold diff_schemas, schema, columns in *.
  assert (Hmem : forall {V} (d : dict V) k,
             In k (Dict.keys d) -> Dict.mem k d = true)
    by (intros V d k; apply mem_true_iff).
  rewrite for_each_skip by (intros t ch Ht; now rewrite (Hmem _ s t Ht)).
  rewrite bind_some.
  rewrite for_each_skip by (intros t ch Ht; now rewrite (Hmem _ s t Ht)).
  rewrite bind_some.
  apply for_each_skip. intros t ch Ht. rewrite (Hmem _ s t Ht).
  destruct (Dict.get s t) as [cols|] eqn:Hg.
  - simpl.
    rewrite for_each_skip
      by (intros c ch' Hc; simpl; now rewrite (Hmem _ cols c Hc)).
    rewrite bind_some.
    apply for_each_skip. intros c ch' Hc. simpl.
    now rewrite (Hmem _ cols c Hc).
  - apply mem_true_iff in Ht. unfold Dict.mem in Ht. now rewrite Hg in Ht.
Qed.

(** C5. A table that both schemas have is in neither table map, and no
    table is in both table maps. *)
Theorem shared_tables_not_counted (old new : schema) :
  wf_schema old -> wf_schema new ->
  exists ch,
    diff_schemas old new = Some ch /\
    (forall t, Dict.mem t old = true -> Dict.mem t new = true ->
       Dict.mem t (added_tables ch) = false /\
       Dict.mem t (removed_tables ch) = false) /\
    (forall t, Dict.mem t (added_tables ch) &&
               Dict.mem t (removed_tables ch) = false).
Proof.
  intros Hold Hnew. rewrite (diff_schemas_closed old new Hold Hnew).
  eexists. split; [reflexivity|]. simpl. split.
  - intros t Ho Hn. rewrite !mem_false_iff, !keys_minus_In.
    apply mem_true_iff in Ho, Hn. tauto.
  - intros t. apply andb_false_iff.
    destruct (Dict.mem t (minus new old)) eqn:E; [right | now left].
    apply mem_true_iff, keys_minus_In in E.
    rewrite mem_false_iff, keys_minus_In. tauto.
Qed.

Lemma shared_tables_not_counted_witness :
  wf_schema old_ab /\ wf_schema new_ba /\
  exists ch,
    diff_schemas old_ab new_ba = Some ch /\
    (forall t, Dict.mem t old_ab = true -> Dict.mem t new_ba = true ->
       Dict.mem t (added_tables ch) = false /\
       Dict.mem t (removed_tables ch) = false) /\
    (forall t, Dict.mem t (added_tables ch) &&
               Dict.mem t (removed_tables ch) = false).
Proof.
  split; [apply wf_schemab_sound; reflexivity|].
  split; [apply wf_schemab_sound; reflexivity|].
  apply (shared_tables_not_counted old_ab new_ba);
    apply wf_schemab_sound; reflexivity.
Defined.

(** ** Properties of [generate_migration] *)

Lemma generate_migration_closed (ch : changes) (dialect : string) :
  generate_migration ch dialect =
  if all_empty ch then "-- No changes detected" +++ nl
  else join nl (map fst (statements ch dialect)) +++ nl +++ nl +++
       join nl (map snd (statements ch dialect)) +++ nl.
Proof.
  unfold generate_migration. rewrite render_lines_closed. simpl.
  rewrite negb_involutive. reflexivity.
Qed.

Lemma all_empty_iff (ch : changes) :
  all_empty ch = true <->
  added_tables ch = [] /\ removed_tables ch = [] /\
  added_columns ch = [] /\ removed_columns ch = [].
Proof.
  unfold all_empty.
  destruct (added_tables ch), (removed_tables ch), (added_columns ch),
    (removed_columns ch); simpl; split; intros H;
    try discriminate; try reflexivity; try tauto;
    destruct H as (H1 & H2 & H3 & H4); discriminate.
Qed.

(** A rendered migration opens with ["-- Up"], the sentinel does not. *)
Lemma join_up_not_sentinel (l : list string) (rest : string) :
  join nl ("-- Up" :: l) +++ rest <> "-- No changes detected" +++ nl.
Proof. destruct l; simpl; discriminate. Qed.

Lemma In_pairs_nth_error {X Y : Type} (l : list (X * Y)) (x : X) (y : Y) :
  In (x, y) l ->
  exists i, nth_error (map fst l) i = Some x /\
            nth_error (map snd l) i = Some y.
Proof.
  intros H. apply In_nth_error in H as [i Hi]. exists i.
  split; rewrite nth_error_map, Hi; reflexivity.
Qed.

(** C2. Diffing a schema against itself gives four empty categories and
    the rendering of that Change Set is the sentinel, for every dialect;
    and [generate_migration] returns the sentinel exactly when the four
    categories are empty. *)
Theorem identical_schemas_render_sentinel (s : schema) (dialect : string) :
  (exists ch,
     diff_schemas s s = Some ch /\
     added_tables ch = [] /\ removed_tables ch = [] /\
     added_columns ch = [] /\ removed_columns ch = [] /\
     generate_migration ch dialect = "-- No changes detected" +++ nl) /\
  (forall ch,
     generate_migration ch dialect = "-- No changes detected" +++ nl <->
     added_tables ch = [] /\ removed_tables ch = [] /\
     added_columns ch = [] /\ removed_columns ch = []).
Proof.
  split.
  - exists no_changes. rewrite diff_schemas_same. repeat split.
  - intros ch. rewrite <- all_empty_iff, generate_migration_closed.
    destruct (all_empty ch); split; intros H; try reflexivity;
      try discriminate.
    exfalso. revert H. unfold statements. simpl map.
    apply join_up_not_sentinel.
Qed.

(** C6. For an added column [C] with definition [defn] in table [T] the
    Up lines hold [ALTER TABLE T ADD COLUMN C defn;] whatever the dialect,
    and the Down line at the same position is [ALTER TABLE T DROP COLUMN C;]
    unless the dialect is exactly ["sqlite"], for which it is the comment
    [-- SQLite: ALTER TABLE T DROP COLUMN C; (requires SQLite 3.35+)].
    For a removed column the two sides are exchanged.  In both cases the
    output is the Up lines, an empty line and the Down lines. *)
Theorem column_statements_by_dialect (ch : changes) (dialect : string)
    (T C defn : string) (cols : columns) :
  In (C, defn) cols ->
  let st := render_lines ch dialect in
  let add := "ALTER TABLE " +++ T +++ " ADD COLUMN " +++ C +++ " " +++ defn
               +++ ";" in
  let drop :=
    if String.eqb dialect "sqlite" then
      "-- SQLite: ALTER TABLE " +++ T +++ " DROP COLUMN " +++ C
        +++ "; (requires SQLite 3.35+)"
    else "ALTER TABLE " +++ T +++ " DROP COLUMN " +++ C +++ ";" in
  let rendered :=
    generate_migration ch dialect =
    join nl (up_lines st) +++ nl +++ nl +++ join nl (down_lines st) +++ nl in
  (In (T, cols) (added_columns ch) ->
   rendered /\
   exists i, nth_error (up_lines st) i = Some add /\
             nth_error (down_lines st) i = Some drop) /\
  (In (T, cols) (removed_columns ch) ->
   rendered /\
   exists i, nth_error (up_lines st) i = Some drop /\
             nth_error (down_lines st) i = Some add).
Proof.
  intros Hcol st add drop rendered. subst st rendered.
  unfold generate_migration. rewrite render_lines_closed.
  cbn [up_lines down_lines has_changes].
  split; intros Htab.
  - split.
    + unfold all_empty. destruct (added_columns ch); [destruct Htab|].
      simpl. now rewrite !orb_true_r.
    + apply In_pairs_nth_error. unfold statements. right.
      apply in_or_app. right. apply in_or_app. right.
      apply in_or_app. left.
      apply in_flat_map. exists (T, cols). split; [exact Htab|].
      apply in_map_iff. exists (C, defn). split; [reflexivity | exact Hcol].
  - split.
    + unfold all_empty. destruct (removed_columns ch); [destruct Htab|].
      simpl. now rewrite !orb_true_r.
    + apply In_pairs_nth_error. unfold statements. right.
      apply in_or_app. right. apply in_or_app. right.
      apply in_or_app. right.
      apply in_flat_map. exists (T, cols). split; [exact Htab|].
      apply in_map_iff. exists (C, defn). split; [reflexivity | exact Hcol].
Qed.

Lemma column_statements_by_dialect_witness :
  In ("email", "TEXT") [("email", "TEXT")] /\
  In ("t", [("email", "TEXT")]) (added_columns ch_email) /\
  exists i,
    nth_error (up_lines (render_lines ch_email "postgresql")) i
    = Some "ALTER TABLE t ADD COLUMN email TEXT;" /\
    nth_error (down_lines (render_lines ch_email "postgresql")) i
    = Some "ALTER TABLE t DROP COLUMN email;".
Proof.
  assert (Hc : In ("email", "TEXT") [("email", "TEXT")]) by (simpl; auto).
  assert (Ht : In ("t", [("email", "TEXT")]) (added_columns ch_email))
    by (simpl; auto).
  split; [exact Hc|]. split; [exact Ht|].
  destruct (column_statements_by_dialect ch_email "postgresql" "t" "email"
              "TEXT" [("email", "TEXT")] Hc) as [Hadd _].
  destruct (Hadd Ht) as [_ Hi]. exact Hi.
Defined.

Lemma map_flat_map {X Y Z : Type} (g : Y -> Z) (f : X -> list Y)
    (l : list X) :
  map g (flat_map f l) = flat_map (fun x => map g (f x)) l.
Proof.
  induction l as [|x l IH]; simpl; [reflexivity|].
  now rewrite map_app, IH.
Qed.

Lemma flat_map_ext_all {X Y : Type} (f g : X -> list Y) (l : list X) :
  (forall x, f x = g x) -> flat_map f l = flat_map g l.
Proof.
  intros H. induction l as [|x l IH]; simpl; [reflexivity|].
  now rewrite H, IH.
Qed.

(** C7. The Up lines are ["-- Up"] followed by the statements of the
    added tables, the removed tables, the added columns and the removed
    columns, in that order, and the Down lines mirror them; a CREATE TABLE
    statement joins its [name defn] items with a comma, a newline and four
    spaces between [" (\n    "] and ["\n);"]; and for a Change Set that
    is not empty the output is the Up lines joined by newlines, an empty
    line, the Down lines joined by newlines and a final newline. *)
Theorem migration_structure (ch : changes) (dialect : string) :
  let st := render_lines ch dialect in
  let create := fun '(table, cols) =>
    "CREATE TABLE " +++ table +++ " (" +++ nl +++ "    " +++
    join ("," +++ nl +++ "    ")
         (map (fun '(name, defn) => name +++ " " +++ defn) cols)
    +++ nl +++ ");" in
  let drop_table := fun tc : string * columns =>
    "DROP TABLE IF EXISTS " +++ fst tc +++ ";" in
  let add_columns := fun '(table, cols) =>
    map (fun '(col, defn) =>
           "ALTER TABLE " +++ table +++ " ADD COLUMN " +++ col +++ " "
             +++ defn +++ ";") cols in
  let drop_columns := fun '(table, cols) =>
    map (fun cd : string * string =>
           if String.eqb dialect "sqlite" then
             "-- SQLite: ALTER TABLE " +++ table +++ " DROP COLUMN "
               +++ fst cd +++ "; (requires SQLite 3.35+)"
           else "ALTER TABLE " +++ table +++ " DROP COLUMN " +++ fst cd
                  +++ ";") cols in
  up_lines st =
    "-- Up" :: map create (added_tables ch)
            ++ map drop_table (removed_tables ch)
            ++ flat_map add_columns (added_columns ch)
            ++ flat_map drop_columns (removed_columns ch) /\
  down_lines st =
    "-- Down" :: map drop_table (added_tables ch)
              ++ map create (removed_tables ch)
              ++ flat_map drop_columns (added_columns ch)
              ++ flat_map add_columns (removed_columns ch) /\
  generate_migration ch dialect =
    (if all_empty ch then "-- No changes detected" +++ nl
     else join nl (up_lines st) +++ nl +++ nl +++
          join nl (down_lines st) +++ nl) /\
  generate_migration ch_new_table dialect =
    "-- Up" +++ nl +++
    "CREATE TABLE t (" +++ nl +++
    "    id INTEGER," +++ nl +++
    "    name TEXT" +++ nl +++
    ");" +++ nl +++ nl +++
    "-- Down" +++ nl +++
    "DROP TABLE IF EXISTS t;" +++ nl.
Proof.
  intros st create drop_table add_columns drop_columns. subst st.
  unfold generate_migration. rewrite render_lines_closed.
  cbn [up_lines down_lines has_changes]. rewrite negb_involutive.
  unfold statements. simpl map.
  rewrite !map_app, !map_map, !map_flat_map.
  repeat split.
  - f_equal. f_equal; [apply map_ext; now intros [] |].
    f_equal; [apply map_ext; now intros [] |].
    f_equal; apply flat_map_ext_all; intros [table cols];
      rewrite map_map; apply map_ext; now intros [].
  - f_equal. f_equal; [apply map_ext; now intros [] |].
    f_equal; [apply map_ext; now intros [] |].
    f_equal; apply flat_map_ext_all; intros [table cols];
      rewrite map_map; apply map_ext; now intros [].
Qed.

(** ** Characters *)

Ltac by_cases_on c :=
  destruct c as [[] [] [] [] [] [] [] []]; vm_compute; try reflexivity;
  try discriminate; auto.

Lemma isspace_upper_char (c : ascii) : isspace (upper_char c) = isspace c.
Proof. by_cases_on c. Qed.

Lemma isspace_not_isword (c : ascii) : isspace c = true -> isword c = false.
Proof. by_cases_on c. Qed.

(** ** Text primitives *)

Lemma append_assoc (a b c : string) : (a +++ b) +++ c = a +++ b +++ c.
Proof. induction a as [|x a IH]; simpl; congruence. Qed.

Lemma upper_app (a b : string) : upper (a +++ b) = upper a +++ upper b.
Proof. induction a as [|x a IH]; simpl; congruence. Qed.

Lemma lstrip_upper (s : string) : lstrip (upper s) = upper (lstrip s).
Proof.
  induction s as [|c s IH]; simpl; [reflexivity|].
  rewrite isspace_upper_char. now destruct (isspace c).
Qed.

Lemma rstrip_upper (s : string) : rstrip (upper s) = upper (rstrip s).
Proof.
  induction s as [|c s IH]; simpl; [reflexivity|].
  rewrite IH, isspace_upper_char.
  destruct (rstrip s); simpl; [now destruct (isspace c) | reflexivity].
Qed.

Lemma strip_upper (s : string) : strip (upper s) = upper (strip s).
Proof. unfold strip. now rewrite lstrip_upper, rstrip_upper. Qed.

Lemma lstrip_spaces (lead s : string) :
  string_forallb isspace lead = true -> lstrip (lead +++ s) = lstrip s.
Proof.
  induction lead as [|c lead IH]; simpl; [reflexivity|].
  intros H. apply andb_true_iff in H as [-> H]. auto.
Qed.

Lemma startswith_app (s t p : string) :
  startswith s p = true -> startswith (s +++ t) p = true.
Proof.
  revert s. induction p as [|b p IH]; intros s.
  - intros _. now destruct (s +++ t).
  - destruct s as [|a s]; simpl; [discriminate|].
    intros H. apply andb_true_iff in H as [-> H]. simpl. auto.
Qed.

Lemma lstrip_first_nonspace (s p : string) :
  startswith s p = true -> first_nonspace p = true -> lstrip s = s.
Proof.
  destruct p as [|b p]; simpl; [discriminate|].
  destruct s as [|a s]; simpl; [discriminate|].
  intros H Hb. apply andb_true_iff in H as [H _].
  apply Ascii.eqb_eq in H. subst a.
  apply negb_true_iff in Hb. now rewrite Hb.
Qed.

(** Trimming on the right leaves a prefix that ends in a character other
    than white space. *)
Lemma rstrip_startswith (p s : string) :
  startswith s p = true -> last_nonspace p = true ->
  startswith (rstrip s) p = true.
Proof.
  revert s. induction p as [|b p IH]; intros s; [discriminate|].
  destruct s as [|a s]; [discriminate|].
  cbn [startswith]. intros H Hl. apply andb_true_iff in H as [Hab H].
  apply Ascii.eqb_eq in Hab. subst a.
  destruct p as [|b' p].
  - simpl in Hl. apply negb_true_iff in Hl. simpl. rewrite Hl.
    destruct (rstrip s); simpl; now rewrite Ascii.eqb_refl.
  - assert (IHs := IH s H Hl). simpl rstrip.
    destruct (rstrip s) as [|a' r]; [discriminate|].
    change (Ascii.eqb b b && startswith (String a' r) (String b' p) = true).
    now rewrite Ascii.eqb_refl, IHs.
Qed.

Lemma constraint_keywords_shape :
  forallb (fun kw => first_nonspace kw && last_nonspace kw)
          constraint_keywords = true.
Proof. reflexivity. Qed.

(** A fragment that, after its leading white space, begins with a
    constraint keyword in any letter case is skipped. *)
Lemma parse_line_keyword (cols : columns) (line kw : string) :
  In kw constraint_keywords ->
  startswith (upper (lstrip line)) kw = true ->
  parse_line cols line = cols.
Proof.
  intros Hkw Hpre. unfold parse_line.
  destruct (is_empty (strip line)); [reflexivity|].
  assert (Hshape := constraint_keywords_shape).
  rewrite forallb_forall in Hshape. specialize (Hshape kw Hkw).
  apply andb_true_iff in Hshape as [_ Hlast].
  assert (E : existsb (fun kw => startswith (upper (strip line)) kw)
                      constraint_keywords = true).
  { apply existsb_exists. exists kw. split; [exact Hkw|].
    unfold strip. rewrite <- rstrip_upper.
    now apply rstrip_startswith. }
  now rewrite E.
Qed.

Lemma split_ws_tokens (s : string) : forallb is_token (split_ws s) = true.
Proof.
  induction s as [|c s IH]; [reflexivity|].
  cbn [split_ws]. destruct (isspace c) eqn:Hc; [exact IH|].
  destruct s as [|c' s'].
  - unfold is_token. simpl. now rewrite Hc.
  - destruct (isspace c') eqn:Hc'.
    + cbn [forallb]. rewrite IH. unfold is_token. simpl. now rewrite Hc.
    + destruct (split_ws (String c' s')) as [|x xs].
      * unfold is_token. simpl. now rewrite Hc.
      * cbn [forallb] in IH |- *. apply andb_true_iff in IH as [Hx Hxs].
        rewrite Hxs, andb_true_r. unfold is_token in *. simpl.
        rewrite Hc. simpl. now apply andb_true_iff in Hx as [_ ->].
Qed.

Lemma get_set_same {V : Type} (d : dict V) (k : string) (v : V) :
  Dict.get (Dict.set d k v) k = Some v.
Proof.
  induction d as [|[k' v'] d IH]; simpl.
  - now rewrite String.eqb_refl.
  - destruct (String.eqb k' k) eqn:E; simpl; now rewrite E.
Qed.

Lemma get_set_other {V : Type} (d : dict V) (k k' : string) (v : V) :
  k <> k' -> Dict.get (Dict.set d k v) k' = Dict.get d k'.
Proof.
  intros Hne. induction d as [|[k0 v0] d IH]; simpl.
  - destruct (String.eqb_spec k k'); [contradiction | reflexivity].
  - destruct (String.eqb_spec k0 k) as [->|Hk]; simpl.
    + destruct (String.eqb_spec k k'); [contradiction | reflexivity].
    + now rewrite IH.
Qed.

Lemma keys_set {V : Type} (d : dict V) (k k' : string) (v : V) :
  In k (Dict.keys (Dict.set d k' v)) -> k = k' \/ In k (Dict.keys d).
Proof.
  induction d as [|[k0 v0] d IH]; simpl.
  - intros [H|[]]. now left.
  - destruct (String.eqb_spec k0 k'); simpl; [tauto|].
    intros [H|H]; [tauto|]. destruct (IH H); tauto.
Qed.

(** Matches for other tables leave the entry of [name] as it is. *)
Lemma parse_match_others (name : string) (ms : list (list string)) :
  (forall m, In m ms -> nth 0 m EmptyString <> name) ->
  forall tables : schema,
  Dict.get (fold_left parse_match ms tables) name = Dict.get tables name.
Proof.
  induction ms as [|m ms IH]; intros H tables; simpl; [reflexivity|].
  rewrite IH by (intros m' Hm'; apply H; now right).
  unfold parse_match. apply get_set_other. apply H. now left.
Qed.

Lemma string_forallb_app (p : ascii -> bool) (a b : string) :
  string_forallb p (a +++ b) = string_forallb p a && string_forallb p b.
Proof.
  induction a as [|c a IH]; simpl; [reflexivity|].
  now rewrite IH, andb_assoc.
Qed.

Lemma token_head (t : string) :
  is_token t = true -> exists c r, t = String c r /\ isspace c = false.
Proof.
  unfold is_token. destruct t as [|c r]; [discriminate|]. simpl.
  intros H. apply andb_true_iff in H as [H _].
  apply negb_true_iff in H. now exists c, r.
Qed.

Lemma token_last_nonspace (t : string) :
  is_token t = true -> last_nonspace t = true.
Proof.
  unfold is_token. induction t as [|c t IH]; [discriminate|]. simpl.
  intros H. apply andb_true_iff in H as [Hc Ht].
  destruct t as [|c' t']; [exact Hc|]. apply IH. exact Ht.
Qed.

Lemma last_nonspace_app (a b : string) :
  last_nonspace b = true -> last_nonspace (a +++ b) = true.
Proof.
  intros H. induction a as [|c a IH]; [exact H|]. simpl.
  destruct (a +++ b) eqn:E; [|exact IH].
  destruct a; [|discriminate]. simpl in E. subst b. discriminate.
Qed.

Lemma last_nonspace_join (sep : string) (l : list string) :
  forallb is_token l = true -> l <> [] ->
  last_nonspace (join sep l) = true.
Proof.
  induction l as [|x l IH]; [congruence|]. intros H _.
  cbn [forallb] in H. apply andb_true_iff in H as [Hx Hl].
  destruct l as [|y l]; [now apply token_last_nonspace|].
  change (join sep (x :: y :: l)) with (x +++ sep +++ join sep (y :: l)).
  do 2 apply last_nonspace_app. apply IH; [exact Hl | discriminate].
Qed.

Lemma rstrip_spaces (ws : string) :
  string_forallb isspace ws = true -> rstrip ws = EmptyString.
Proof.
  induction ws as [|c ws IH]; [reflexivity|]. simpl.
  intros H. apply andb_true_iff in H as [Hc H]. now rewrite IH, Hc.
Qed.

Lemma rstrip_app_spaces (core ws : string) :
  last_nonspace core = true -> string_forallb isspace ws = true ->
  rstrip (core +++ ws) = core.
Proof.
  intros Hl Hws. induction core as [|c core IH]; [discriminate|].
  cbn [String.append rstrip]. destruct core as [|c' core'].
  - simpl String.append. rewrite (rstrip_spaces ws Hws).
    simpl in Hl. apply negb_true_iff in Hl. now rewrite Hl.
  - rewrite IH by exact Hl. reflexivity.
Qed.

Lemma append_nil_r (a : string) : a +++ EmptyString = a.
Proof. induction a; simpl; congruence. Qed.

(** ** The fragment rule *)


















Lemma split_on_without (sep : ascii) (a : string) :
  string_forallb (fun c => negb (Ascii.eqb c sep)) a = true ->
  split_on sep a = [a].
Proof.
  induction a as [|c a IH]; [reflexivity|]. simpl.
  intros H. apply andb_true_iff in H as [Hc Ha].
  apply negb_true_iff in Hc. now rewrite Hc, IH.
Qed.

Lemma split_on_at (sep : ascii) (a b : string) :
  string_forallb (fun c => negb (Ascii.eqb c sep)) a = true ->
  split_on sep (a +++ String sep b) = a :: split_on sep b.
Proof.
  induction a as [|c a IH]; simpl.
  - intros _. now rewrite Ascii.eqb_refl.
  - intros H. apply andb_true_iff in H as [Hc Ha].
    apply negb_true_iff in Hc. now rewrite Hc, IH.
Qed.

(** Splitting undoes joining, for parts that do not hold the
    separator. *)
Lemma split_on_join (sep : ascii) (l : list string) :
  l <> [] ->
  forallb (string_forallb (fun c => negb (Ascii.eqb c sep))) l = true ->
  split_on sep (join (String sep EmptyString) l) = l.
Proof.
  induction l as [|x l IH]; [congruence|]. intros _ H.
  cbn [forallb] in H. apply andb_true_iff in H as [Hx Hl].
  destruct l as [|y l]; [now apply split_on_without|].
  change (join (String sep EmptyString) (x :: y :: l))
    with (x +++ String sep (join (String sep EmptyString) (y :: l))).
  rewrite split_on_at by exact Hx.
  f_equal. apply IH; [discriminate | exact Hl].
Qed.

(** ** Properties of [parse_schema] *)



Lemma lstrip_head (s r : string) (c : ascii) :
  lstrip s = String c r -> isspace c = false.
Proof.
  induction s as [|a s IH]; simpl; [discriminate|].
  destruct (isspace a) eqn:Ha; [exact IH|]. now intros [= <- _].
Qed.

Lemma lstrip_strip (s : string) : lstrip (strip s) = strip s.
Proof.
  unfold strip. destruct (lstrip s) as [|c r] eqn:E; [reflexivity|].
  apply lstrip_head in E. simpl.
  rewrite E. destruct (rstrip r); simpl; now rewrite E.
Qed.

(** The first token opens the text once leading white space is gone. *)
Lemma split_ws_head (s name : string) (rest : list string) :
  split_ws s = name :: rest -> exists tail, lstrip s = name +++ tail.
Proof.
  revert name rest. induction s as [|c s IH]; intros name rest;
    [discriminate|].
  cbn [split_ws lstrip]. destruct (isspace c) eqn:Hc; [apply IH|].
  destruct s as [|c' s'].
  - intros [= <- _]. now exists EmptyString.
  - destruct (isspace c') eqn:Hc'.
    + intros [= <- _]. now exists (String c' s').
    + destruct (split_ws (String c' s')) as [|x xs] eqn:Hx.
      * intros [= <- _]. now exists (String c' s').
      * intros [= <- _]. destruct (IH x xs eq_refl) as [tail Ht].
        simpl in Ht. rewrite Hc' in Ht. exists tail. simpl. now rewrite Ht.
Qed.

Lemma In_set {V : Type} (d : dict V) (k k' : string) (v v' : V) :
  In (k, v) (Dict.set d k' v') -> (k = k' /\ v = v') \/ In (k, v) d.
Proof.
  induction d as [|[k0 v0] d IH]; simpl.
  - intros [[= <- <-]|[]]. now left.
  - destruct (String.eqb_spec k0 k') as [->|Hne]; simpl.
    + intros [[= <- <-]|H]; [now left | tauto].
    + intros [H|H]; [tauto|]. destruct (IH H); tauto.
Qed.

(** A column name that [parse_line] records does not begin with a
    constraint keyword, in any letter case. *)
Lemma parse_line_keys (cols : columns) (line k : string) :
  In k (Dict.keys (parse_line cols line)) ->
  In k (Dict.keys cols) \/
  existsb (fun kw => startswith (upper k) kw) constraint_keywords = false.
Proof.
  unfold parse_line. destruct (is_empty (strip line)); [tauto|].
  destruct (existsb _ constraint_keywords) eqn:E at 1; [tauto|].
  destruct (split_ws (strip line)) as [|name rest] eqn:Hs; [simpl; tauto|].
  destruct (2 <=? List.length (name :: rest)); [|tauto].
  intros H. apply keys_set in H as [->|H]; [right | now left].
  destruct (existsb (fun kw => startswith (upper name) kw)
              constraint_keywords) eqn:E'; [|reflexivity].
  apply existsb_exists in E' as (kw & Hkw & Hpre).
  apply split_ws_head in Hs as [tail Ht]. rewrite lstrip_strip in Ht.
  assert (E'' : existsb (fun kw => startswith (upper (strip line)) kw)
                  constraint_keywords = true).
  { apply existsb_exists. exists kw. split; [exact Hkw|].
    rewrite Ht, upper_app. now apply startswith_app. }
  congruence.
Qed.

Lemma parse_columns_keys (frags : list string) :
  forall (cols : columns) (k : string),
  In k (Dict.keys (fold_left parse_line frags cols)) ->
  In k (Dict.keys cols) \/
  existsb (fun kw => startswith (upper k) kw) constraint_keywords = false.
Proof.
  induction frags as [|line frags IH]; intros cols k; simpl; [tauto|].
  intros H. destruct (IH _ _ H) as [Hk|Hk]; [|now right].
  now apply parse_line_keys in Hk.
Qed.

(** Each table of the result holds the columns of one matched body. *)
Lemma In_parse_matches (ms : list (list string)) :
  forall (tables : schema) (t : string) (cols : columns),
  In (t, cols) (fold_left parse_match ms tables) ->
  In (t, cols) tables \/
  exists m, In m ms /\ cols = parse_columns (nth 1 m EmptyString).
Proof.
  induction ms as [|m ms IH]; intros tables t cols; simpl; [tauto|].
  intros H. destruct (IH _ _ _ H) as [Hin|(m' & Hm' & E)].
  - unfold parse_match in Hin. apply In_set in Hin as [[_ ->]|Hin].
    + right. exists m. auto.
    + now left.
  - right. exists m'. auto.
Qed.

(** C9. The keyword test is a prefix test on the upper-cased fragment,
    not a test on its first token: a fragment whose column name merely
    begins with a constraint keyword, in any letter case and whatever
    follows the name, leaves the column set as it was.  Hence no table
    that [parse_schema] returns has a column whose name begins with a
    constraint keyword; [checksum], [unique_id] and [constraint_kind] are
    missing from the parsed sample. *)
Theorem keyword_prefixed_columns_omitted :
  (forall (cols : columns) (lead name rest kw : string),
     In kw constraint_keywords ->
     string_forallb isspace lead = true ->
     startswith (upper name) kw = true ->
     parse_line cols (lead +++ name +++ rest) = cols) /\
  (forall (sql table name : string) (cols : columns),
     In (table, cols) (parse_schema sql) ->
     In name (Dict.keys cols) ->
     forall kw, In kw constraint_keywords ->
                startswith (upper name) kw = false) /\
  parse_schema sql_keyword_names = [("t", [("id", "INTEGER")])].
Proof.
  split; [|split; [|reflexivity]].
  - intros cols lead name rest kw Hkw Hlead Hname.
    apply (parse_line_keyword cols _ kw Hkw).
    rewrite lstrip_spaces by exact Hlead.
    rewrite <- lstrip_upper, upper_app.
    assert (Hpre : startswith (upper name +++ upper rest) kw = true)
      by now apply startswith_app.
    assert (Hshape := constraint_keywords_shape).
    rewrite forallb_forall in Hshape. specialize (Hshape kw Hkw).
    apply andb_true_iff in Hshape as [Hfirst _].
    now rewrite (lstrip_first_nonspace _ kw Hpre Hfirst).
  - intros sql table name cols Hin Hname kw Hkw.
    unfold parse_schema in Hin.
    apply In_parse_matches in Hin as [[]|(m & _ & ->)].
    unfold parse_columns in Hname.
    apply parse_columns_keys in Hname as [[]|E].
    destruct (startswith (upper name) kw) eqn:Hpre; [|reflexivity].
    assert (E' : existsb (fun kw => startswith (upper name) kw)
                   constraint_keywords = true)
      by (apply existsb_exists; now exists kw).
    congruence.
Qed.

Lemma keyword_prefixed_columns_omitted_witness :
  In "CHECK" constraint_keywords /\
  string_forallb isspace " " = true /\
  startswith (upper "checksum") "CHECK" = true /\
  parse_line [("id", "INTEGER")] (" " +++ "checksum" +++ " INTEGER")
  = [("id", "INTEGER")].
Proof.
  assert (Hkw : In "CHECK" constraint_keywords) by (simpl; auto).
  assert (Hlead : string_forallb isspace " " = true) by reflexivity.
  assert (Hname : startswith (upper "checksum") "CHECK" = true)
    by reflexivity.
  split; [exact Hkw|]. split; [exact Hlead|]. split; [exact Hname|].
  exact (proj1 keyword_prefixed_columns_omitted [("id", "INTEGER")]
           " " "checksum" " INTEGER" "CHECK" Hkw Hlead Hname).
Defined.

(** C8. When the text holds several CREATE TABLE blocks for one table
    name, the table is bound to the columns of the last of them alone:
    the columns parsed from that block's own body, whatever the earlier
    blocks held. *)
Theorem last_create_table_wins (sql : string)
    (before after : list (list string)) (name body : string) :
  finditer pattern sql = before ++ [name; body] :: after ->
  (forall m, In m after -> nth 0 m EmptyString <> name) ->
  Dict.get (parse_schema sql) name = Some (parse_columns body) /\
  parse_schema sql_twice = [("t", [("c", "TEXT")]); ("u", [("k", "INT")])].
Proof.
  intros Hms Hafter. split; [|reflexivity].
  unfold parse_schema. rewrite Hms, fold_left_app. simpl.
  rewrite parse_match_others by exact Hafter.
  unfold parse_match. simpl. apply get_set_same.
Qed.

Lemma last_create_table_wins_witness :
  finditer pattern sql_twice =
    [["t"; "a INT, b INT"]; ["u"; "k INT"]] ++ ["t"; "c TEXT"] :: [] /\
  Dict.get (parse_schema sql_twice) "t" = Some [("c", "TEXT")].
Proof.
  assert (Hms : finditer pattern sql_twice =
                [["t"; "a INT, b INT"]; ["u"; "k INT"]]
                  ++ ["t"; "c TEXT"] :: []) by reflexivity.
  split; [exact Hms|].
  exact (proj1 (last_create_table_wins sql_twice
                  [["t"; "a INT, b INT"]; ["u"; "k INT"]] [] "t" "c TEXT"
                  Hms (fun m (H : In m []) => match H with end))).
Defined.

(** ** The matcher *)

Lemma greedy_sound (set : ascii -> bool)
    (k : string -> option (matched * string)) (s text : string)
    (r : matched * string) :
  greedy set k s = Some (text, r) ->
  string_forallb set text = true /\
  exists s', s = text +++ s' /\ k s' = Some r.
Proof.
  revert text. induction s as [|c s IH]; intros text; simpl.
  - destruct (k EmptyString) as [r'|] eqn:Hk; [|discriminate].
    intros [= <- <-]. split; [reflexivity|]. now exists EmptyString.
  - assert (Hstop :
      match k (String c s) with
      | Some r0 => Some (EmptyString, r0)
      | None => None
      end = Some (text, r) ->
      string_forallb set text = true /\
      exists s', String c s = text +++ s' /\ k s' = Some r).
    { destruct (k (String c s)) as [r'|] eqn:Hk; [|discriminate].
      intros [= <- <-]. split; [reflexivity|]. now exists (String c s). }
    destruct (set c) eqn:Hc; [|exact Hstop].
    destruct (greedy set k s) as [[text' r']|] eqn:Hg; [|exact Hstop].
    intros [= <- <-]. destruct (IH text' eq_refl) as (Hall & s' & -> & Hk).
    split; [simpl; now rewrite Hc|]. now exists s'.
Qed.

Lemma lazy_sound (set : ascii -> bool)
    (k : string -> option (matched * string)) (s text : string)
    (r : matched * string) :
  lazy set k s = Some (text, r) ->
  string_forallb set text = true /\
  exists s', s = text +++ s' /\ k s' = Some r.
Proof.
  revert text. induction s as [|c s IH]; intros text; simpl.
  - destruct (k EmptyString) as [r'|] eqn:Hk; [|discriminate].
    intros [= <- <-]. split; [reflexivity|]. now exists EmptyString.
  - destruct (k (String c s)) as [r'|] eqn:Hk.
    + intros [= <- <-]. split; [reflexivity|]. now exists (String c s).
    + destruct (set c) eqn:Hc; [|discriminate].
      destruct (lazy set k s) as [[text' r']|] eqn:Hg; [|discriminate].
      intros [= <- <-]. destruct (IH text' eq_refl) as (Hall & s' & -> & Hk').
      split; [simpl; now rewrite Hc|]. now exists s'.
Qed.

Lemma match_items_sound (items : list item) :
  forall s m rest,
  match_items items s = Some (m, rest) ->
  Forall2 item_matches items m /\
  s = fold_right String.append rest (map snd m).
Proof.
  induction items as [|it items IH]; intros s m rest; simpl.
  - intros [= <- <-]. split; [constructor | reflexivity].
  - destruct (quant it) eqn:Hq.
    + destruct s as [|c s]; [discriminate|].
      destruct (accepts it c) eqn:Hc; [|discriminate].
      unfold consume.
      destruct (match_items items s) as [[m' rest']|] eqn:Hm; [|discriminate].
      intros [= <- <-]. destruct (IH _ _ _ Hm) as [HF ->].
      split; [|reflexivity]. constructor; [|exact HF].
      unfold item_matches. rewrite Hq. simpl. rewrite Hc.
      repeat split. discriminate.
    + destruct s as [|c s]; [discriminate|].
      destruct (accepts it c) eqn:Hc; [|discriminate].
      destruct (greedy (accepts it) (match_items items) s)
        as [[text [m' rest']]|] eqn:Hg; [|discriminate].
      intros [= <- <-].
      apply greedy_sound in Hg as (Hall & s' & -> & Hk).
      destruct (IH _ _ _ Hk) as [HF ->].
      split; [|reflexivity]. constructor; [|exact HF].
      unfold item_matches. rewrite Hq. simpl. rewrite Hc, Hall.
      repeat split. discriminate.
    + unfold grouped.
      destruct (greedy (accepts it) (match_items items) s)
        as [[text [m' rest']]|] eqn:Hg; [|discriminate].
      intros [= <- <-].
      apply greedy_sound in Hg as (Hall & s' & -> & Hk).
      destruct (IH _ _ _ Hk) as [HF ->].
      split; [|reflexivity]. constructor; [|exact HF].
      unfold item_matches. rewrite Hq. simpl. now rewrite Hall.
    + unfold grouped.
      destruct (lazy (accepts it) (match_items items) s)
        as [[text [m' rest']]|] eqn:Hg; [|discriminate].
      intros [= <- <-].
      apply lazy_sound in Hg as (Hall & s' & -> & Hk).
      destruct (IH _ _ _ Hk) as [HF ->].
      split; [|reflexivity]. constructor; [|exact HF].
      unfold item_matches. rewrite Hq. simpl. now rewrite Hall.
Qed.

Lemma length_app (a b : string) :
  String.length (a +++ b) = String.length a + String.length b.
Proof. induction a as [|c a IH]; simpl; congruence. Qed.

Lemma fold_right_append_length (rest : string) (l : list string) :
  String.length rest <= String.length (fold_right String.append rest l).
Proof.
  induction l as [|t l IH]; simpl; [lia|]. rewrite length_app. lia.
Qed.

Ltac invert_items :=
  repeat match goal with
         | H : Forall2 _ (_ :: _) _ |- _ => inversion H; clear H; subst
         | H : Forall2 _ [] _ |- _ => inversion H; clear H; subst
         end.

(** A match of [pattern] has two groups; the first is a non-empty run of
    word characters, and the match is not empty. *)
Lemma pattern_groups (s : string) (m : matched) (rest : string) :
  match_items pattern s = Some (m, rest) ->
  exists name body,
    groups m = [name; body] /\ name <> EmptyString /\
    string_forallb isword name = true /\
    String.length rest < String.length s.
Proof.
  intros H. apply match_items_sound in H as [HF Hs].
  unfold pattern, literal in HF. simpl in HF.
  assert (Hlen : String.length rest < String.length s).
  { inversion HF as [|it [f t] items m' (_ & _ & Hne) _]; subst.
    simpl in Hne |- *. rewrite length_app.
    pose proof (fold_right_append_length rest (map snd m')).
    destruct t; simpl; [congruence | lia]. }
  clear Hs. invert_items.
  repeat match goal with
         | H : item_matches _ ?y |- _ =>
             destruct y; destruct H as (? & ? & ?); simpl in *; subst
         end.
  do 2 eexists. split; [reflexivity|]. repeat split; assumption.
Qed.

(** The fuel of [finditer] is enough: more fuel finds the same matches. *)
Lemma finditer_from_enough (fuel1 : nat) :
  forall fuel2 s,
  String.length s < fuel1 -> String.length s < fuel2 ->
  finditer_from fuel1 pattern s = finditer_from fuel2 pattern s.
Proof.
  induction fuel1 as [|fuel1 IH]; intros fuel2 s H1 H2; [lia|].
  destruct fuel2 as [|fuel2]; [lia|]. cbn [finditer_from].
  destruct (match_items pattern s) as [[m rest]|] eqn:Hm.
  - apply pattern_groups in Hm as (_ & _ & _ & _ & _ & Hlen).
    f_equal. apply IH; lia.
  - destruct s as [|c s]; [reflexivity|]. simpl in H1, H2. apply IH; lia.
Qed.


Lemma keys_parse_matches (ms : list (list string)) :
  forall (tables : schema) (k : string),
  In k (Dict.keys (fold_left parse_match ms tables)) ->
  In k (Dict.keys tables) \/ exists m, In m ms /\ k = nth 0 m EmptyString.
Proof.
  induction ms as [|m ms IH]; intros tables k; simpl; [tauto|].
  intros H. destruct (IH _ _ H) as [Hk|(m' & Hm' & Hk)].
  - unfold parse_match in Hk. apply keys_set in Hk as [Hk|Hk]; [|tauto].
    right. exists m. auto.
  - right. exists m'. auto.
Qed.

(** A greedy run over [w], all of it in [set], in front of a text that
    does not go on in [set]: when the continuation fails on every text
    that begins in [set], the run takes all of [w] or the match fails. *)
Lemma greedy_span (set : ascii -> bool)
    (k : string -> option (matched * string)) (w s : string) :
  string_forallb set w = true ->
  (forall c s', set c = true -> k (String c s') = None) ->
  match s with
  | EmptyString => True
  | String c _ => set c = false
  end ->
  greedy set k (w +++ s) =
  match k s with
  | Some r => Some (w, r)
  | None => None
  end.
Proof.
  intros Hw Hk Hs. induction w as [|c w IH]; simpl.
  - destruct s as [|c s]; [reflexivity|]. simpl. now rewrite Hs.
  - simpl in Hw. apply andb_true_iff in Hw as [Hc Hw].
    rewrite Hc, (IH Hw), (Hk c _ Hc). now destruct (k s).
Qed.

Lemma space_is_not_letter (c x : ascii) :
  isspace c = true -> isword x = true ->
  Ascii.eqb (lower_char c) (lower_char x) = false.
Proof.
  intros Hc Hx. apply Ascii.eqb_neq. intros E.
  assert (Hl : forall a, isword (lower_char a) = isword a) by (intros a; by_cases_on a).
  assert (Hs : forall a, isspace (lower_char a) = isspace a) by (intros a; by_cases_on a).
  rewrite <- Hs, E in Hc. apply isspace_not_isword in Hc.
  rewrite Hl in Hc. congruence.
Qed.

Lemma paren_is_not_word (c : ascii) :
  isword c = true -> Ascii.eqb (lower_char c) (lower_char "(") = false.
Proof. by_cases_on c. Qed.



Lemma lit_rejects (x c : ascii) (items : list item) (s : string) :
  Ascii.eqb (lower_char c) (lower_char x) = false ->
  match_items (lit x :: items) (String c s) = None.
Proof. intros H. cbn [match_items lit quant accepts]. now rewrite H. Qed.


Lemma star_space_paren_none (items : list item) (c : ascii) (s : string) :
  isspace c = false ->
  Ascii.eqb (lower_char c) (lower_char "(") = false ->
  match_items (mk_item isspace Star false :: lit "(" :: items) (String c s)
  = None.
Proof.
  intros Hs Hp.
  change (grouped (mk_item isspace Star false)
            (greedy isspace (match_items (lit "(" :: items)) (String c s))
          = None).
  cbn [greedy]. rewrite Hs. now rewrite (lit_rejects "(" c items s Hp).
Qed.




(** ** Worked examples *)

Example parse_without_create_table :
  parse_schema "SELECT 1; -- no table here" = [].
Proof. reflexivity. Qed.

Example parse_unterminated_block :
  parse_schema "CREATE TABLE t (id INTEGER" = [].
Proof. reflexivity. Qed.

Example parse_lower_case_keywords :
  parse_schema ("create   table t (" +++ nl +++ "  id INTEGER," +++ nl
                  +++ "  PRIMARY KEY (id)" +++ nl +++ ");")
  = [("t", [("id", "INTEGER")])].
Proof. reflexivity. Qed.

Example diff_added_table :
  diff_schemas [] [("t", [("id", "INTEGER")])]
  = Some (mk_changes [("t", [("id", "INTEGER")])] [] [] []).
Proof. reflexivity. Qed.

Example diff_ignores_type_change :
  diff_schemas [("t", [("id", "INTEGER")])] [("t", [("id", "TEXT")])]
  = Some no_changes.
Proof. reflexivity. Qed.

Example render_added_column_sqlite :
  generate_migration ch_email "sqlite" =
    "-- Up" +++ nl +++
    "ALTER TABLE t ADD COLUMN email TEXT;" +++ nl +++ nl +++
    "-- Down" +++ nl +++
    "-- SQLite: ALTER TABLE t DROP COLUMN email; (requires SQLite 3.35+)"
    +++ nl.
Proof. reflexivity. Qed.

Example render_added_column_postgresql :
  generate_migration ch_email "postgresql" =
    "-- Up" +++ nl +++
    "ALTER TABLE t ADD COLUMN email TEXT;" +++ nl +++ nl +++
    "-- Down" +++ nl +++
    "ALTER TABLE t DROP COLUMN email;" +++ nl.
Proof. reflexivity. Qed.

(** * Further properties *)

(** ** The parser's results *)

Lemma keys_set_cases {V : Type} (d : dict V) (k : string) (v : V) :
  Dict.keys (Dict.set d k v) =
  if Dict.mem k d then Dict.keys d else Dict.keys d ++ [k].
Proof.
  unfold Dict.mem. induction d as [|[k' v'] d IH]; simpl; [reflexivity|].
  destruct (String.eqb k' k) eqn:E; simpl; [reflexivity|].
  rewrite IH. now destruct (Dict.get d k).
Qed.

Lemma wf_set {V : Type} (d : dict V) (k : string) (v : V) :
  Dict.wf d -> Dict.wf (Dict.set d k v).
Proof.
  unfold Dict.wf. rewrite keys_set_cases.
  destruct (Dict.mem k d) eqn:E; [tauto|].
  intros H. apply mem_false_iff in E.
  apply NoDup_app; [exact H | repeat constructor; intros [] |].
  intros x Hx [<-|[]]. contradiction.
Qed.

Lemma Forall_set {V : Type} (P : string * V -> Prop) (d : dict V)
    (k : string) (v : V) :
  (forall k', P (k', v)) -> Forall P d -> Forall P (Dict.set d k v).
Proof.
  intros Hv. induction d as [|[k' v'] d IH]; simpl; intros H.
  - constructor; [apply Hv | constructor].
  - inversion H; subst.
    destruct (String.eqb k' k); constructor; auto.
Qed.

Lemma wf_parse_line (cols : columns) (line : string) :
  Dict.wf cols -> Dict.wf (parse_line cols line).
Proof.
  intros H. unfold parse_line.
  destruct (is_empty (strip line)); [exact H|].
  destruct (existsb _ constraint_keywords); [exact H|].
  destruct (split_ws (strip line)) as [|name rest]; [now destruct (2 <=? _)|].
  destruct (2 <=? _); [now apply wf_set | exact H].
Qed.

Lemma wf_parse_columns (body : string) : Dict.wf (parse_columns body).
Proof.
  unfold parse_columns.
  assert (G : forall frags cols, Dict.wf cols ->
                Dict.wf (fold_left parse_line frags cols)).
  { induction frags as [|f frags IH]; intros cols H; simpl; [exact H|].
    apply IH. now apply wf_parse_line. }
  apply G. constructor.
Qed.

Lemma wf_parse_matches (ms : list (list string)) :
  forall tables : schema,
  wf_schema tables -> wf_schema (fold_left parse_match ms tables).
Proof.
  induction ms as [|m ms IH]; intros tables H; simpl; [exact H|].
  apply IH. destruct H as [H1 H2]. unfold parse_match. split.
  - now apply wf_set.
  - apply Forall_set; [|exact H2]. intros k'. apply wf_parse_columns.
Qed.

(** X1. Whatever the text, the parsed schema is a proper dictionary: no
    table name is listed twice, and within a table no column name is
    listed twice.  So the parser's results meet what the properties of
    the diff ask of their inputs. *)
Theorem parse_schema_well_formed (sql : string) :
  wf_schema (parse_schema sql).
Proof.
  unfold parse_schema. apply wf_parse_matches.
  split; [constructor | constructor].
Qed.

Lemma split_on_forall (sep : ascii) (s : string) :
  forallb (string_forallb (fun c => negb (Ascii.eqb c sep))) (split_on sep s)
  = true.
Proof.
  induction s as [|c s IH]; [reflexivity|]. cbn [split_on].
  destruct (Ascii.eqb c sep) eqn:E; [exact IH|].
  destruct (split_on sep s) as [|x xs]; simpl in *.
  - now rewrite E.
  - now rewrite E.
Qed.

Lemma lstrip_forall (p : ascii -> bool) (s : string) :
  string_forallb p s = true -> string_forallb p (lstrip s) = true.
Proof.
  induction s as [|c s IH]; simpl; [reflexivity|].
  intros H. destruct (isspace c); [|exact H].
  apply andb_true_iff in H as [_ H]. auto.
Qed.

Lemma rstrip_forall (p : ascii -> bool) (s : string) :
  string_forallb p s = true -> string_forallb p (rstrip s) = true.
Proof.
  induction s as [|c s IH]; simpl; [reflexivity|].
  intros H. apply andb_true_iff in H as [Hc H]. specialize (IH H).
  destruct (rstrip s).
  - destruct (isspace c); simpl; [reflexivity | now rewrite Hc].
  - simpl in *. now rewrite Hc.
Qed.

Lemma split_ws_forall (p : ascii -> bool) (s : string) :
  string_forallb p s = true ->
  forallb (string_forallb p) (split_ws s) = true.
Proof.
  induction s as [|c s IH]; [reflexivity|].
  intros H. simpl in H. apply andb_true_iff in H as [Hc H].
  specialize (IH H). cbn [split_ws]. destruct (isspace c); [exact IH|].
  destruct s as [|c' s'].
  - simpl. now rewrite Hc.
  - destruct (isspace c').
    + cbn [forallb]. rewrite IH. simpl. now rewrite Hc.
    + destruct (split_ws (String c' s')) as [|x xs].
      * simpl. now rewrite Hc.
      * cbn [forallb] in IH |- *. apply andb_true_iff in IH as [Hx Hxs].
        rewrite Hxs. simpl. now rewrite Hc, Hx.
Qed.

Lemma join_forall (p : ascii -> bool) (sep : string) (l : list string) :
  string_forallb p sep = true ->
  forallb (string_forallb p) l = true ->
  string_forallb p (join sep l) = true.
Proof.
  intros Hsep. induction l as [|x l IH]; [reflexivity|].
  intros H. cbn [forallb] in H. apply andb_true_iff in H as [Hx Hl].
  destruct l as [|y l]; [exact Hx|].
  change (join sep (x :: y :: l)) with (x +++ sep +++ join sep (y :: l)).
  rewrite !string_forallb_app, Hx, Hsep. simpl. now apply IH.
Qed.

(** Where an entry of the column set comes from. *)
Lemma In_parse_line (cols : columns) (line name defn : string) :
  In (name, defn) (parse_line cols line) ->
  In (name, defn) cols \/
  exists tok toks,
    split_ws (strip line) = name :: tok :: toks /\
    defn = join " " (tok :: toks).
Proof.
  unfold parse_line. destruct (is_empty (strip line)); [tauto|].
  destruct (existsb _ constraint_keywords); [tauto|].
  destruct (split_ws (strip line)) as [|n [|tok toks]]; simpl; try tauto.
  intros H. apply In_set in H as [[-> ->]|H]; [right | now left].
  now exists tok, toks.
Qed.

Lemma In_parse_columns (frags : list string) :
  forall (cols : columns) (name defn : string),
  In (name, defn) (fold_left parse_line frags cols) ->
  In (name, defn) cols \/
  exists line tok toks,
    In line frags /\
    split_ws (strip line) = name :: tok :: toks /\
    defn = join " " (tok :: toks).
Proof.
  induction frags as [|f frags IH]; intros cols name defn; simpl; [tauto|].
  intros H. destruct (IH _ _ _ H) as [Hin|(line & tok & toks & Hl & Hs & E)].
  - apply In_parse_line in Hin as [Hin|(tok & toks & Hs & E)]; [now left|].
    right. exists f, tok, toks. auto.
  - right. exists line, tok, toks. auto.
Qed.

(** X2. Every column that [parse_schema] records has a name that is a
    single token (not empty, no white space) and a definition made of
    one or more tokens joined by single spaces; neither holds a comma,
    since the body is split at every comma. *)
Theorem parsed_columns_are_normalised (sql table name defn : string)
    (cols : columns) :
  In (table, cols) (parse_schema sql) ->
  In (name, defn) cols ->
  is_token name = true /\
  comma_free name = true /\
  comma_free defn = true /\
  exists toks,
    toks <> [] /\ forallb is_token toks = true /\ defn = join " " toks.
Proof.
  intros Htab Hcol. unfold parse_schema in Htab.
  apply In_parse_matches in Htab as [[]|(m & _ & ->)].
  unfold parse_columns in Hcol.
  apply In_parse_columns in Hcol
    as [[]|(line & tok & toks & Hline & Hs & ->)].
  assert (Htoks := split_ws_tokens (strip line)).
  assert (Hfree : forallb comma_free (split_ws (strip line)) = true).
  { apply split_ws_forall. unfold strip.
    apply rstrip_forall, lstrip_forall.
    assert (H := split_on_forall "," (nth 1 m EmptyString)).
    rewrite forallb_forall in H. now apply H. }
  rewrite Hs in Htoks, Hfree. cbn [forallb] in Htoks, Hfree.
  apply andb_true_iff in Htoks as [Hname Htoks].
  apply andb_true_iff in Hfree as [Hfname Hfree].
  repeat split; try assumption.
  - now apply join_forall.
  - exists (tok :: toks). repeat split; [discriminate | exact Htoks].
Qed.

Lemma parsed_columns_are_normalised_witness :
  In ("t", [("id", "INTEGER PRIMARY KEY"); ("name", "TEXT")])
     (parse_schema sql_users) /\
  is_token "id" = true /\
  comma_free "INTEGER PRIMARY KEY" = true.
Proof.
  assert (Htab : In ("t", [("id", "INTEGER PRIMARY KEY"); ("name", "TEXT")])
                    (parse_schema sql_users)) by (vm_compute; auto).
  assert (Hcol : In ("id", "INTEGER PRIMARY KEY")
                    [("id", "INTEGER PRIMARY KEY"); ("name", "TEXT")])
    by (simpl; auto).
  split; [exact Htab|].
  destruct (parsed_columns_are_normalised sql_users "t" "id"
              "INTEGER PRIMARY KEY" _ Htab Hcol) as (H1 & _ & H3 & _).
  split; [exact H1 | exact H3].
Defined.

(** ** Texts that hold no block *)

Lemma occurs_app_r (p pre x : string) :
  occurs p x = true -> occurs p (pre +++ x) = true.
Proof.
  intros H. induction pre as [|c pre IH]; [exact H|].
  cbn [String.append occurs]. rewrite IH. apply orb_true_r.
Qed.

Lemma close_paren_only (c : ascii) : accepts (lit ")") c = true -> c = ")"%char.
Proof. by_cases_on c. Qed.

Lemma semicolon_only (c : ascii) : accepts (lit ";") c = true -> c = ";"%char.
Proof. by_cases_on c. Qed.

Lemma occurs_close (a b rest : string) :
  a <> EmptyString -> string_forallb (accepts (lit ")")) a = true ->
  b <> EmptyString -> string_forallb (accepts (lit ";")) b = true ->
  occurs ");" (a +++ b +++ rest) = true.
Proof.
  intros Ha Hpa Hb Hpb. induction a as [|c a IH]; [congruence|].
  cbn [string_forallb] in Hpa. apply andb_true_iff in Hpa as [Hc Hpa].
  apply close_paren_only in Hc. subst c.
  destruct a as [|c' a'].
  - destruct b as [|d b']; [congruence|].
    cbn [string_forallb] in Hpb. apply andb_true_iff in Hpb as [Hd _].
    apply semicolon_only in Hd. subst d. simpl.
    now destruct (b' +++ rest).
  - apply (occurs_app_r ");" (String ")" EmptyString)
             (String c' a' +++ b +++ rest)).
    apply IH; [discriminate | exact Hpa].
Qed.

(** A match of [pattern] holds the two closing characters. *)
Lemma pattern_match_occurs (s : string) (m : matched) (rest : string) :
  match_items pattern s = Some (m, rest) -> occurs ");" s = true.
Proof.
  intros H. apply match_items_sound in H as [HF Hs].
  unfold pattern, literal in HF. simpl in HF. invert_items.
  repeat match goal with
         | H : item_matches _ ?y |- _ =>
             destruct y; destruct H as (? & ? & ?); simpl in *; subst
         end.
  do 17 apply occurs_app_r. now apply occurs_close.
Qed.

Lemma finditer_without_close (fuel : nat) :
  forall s, occurs ");" s = false -> finditer_from fuel pattern s = [].
Proof.
  induction fuel as [|fuel IH]; intros s H; [reflexivity|].
  cbn [finditer_from].
  destruct (match_items pattern s) as [[m rest]|] eqn:Hm.
  - apply pattern_match_occurs in Hm. congruence.
  - destruct s as [|c s]; [reflexivity|]. apply IH.
    cbn [occurs] in H. now apply orb_false_iff in H as [_ H].
Qed.

(** X3. A text in which the two characters [");"] never occur side by
    side holds no complete block: the result is the empty schema, and
    nothing is raised. *)
Theorem no_closing_no_tables (sql : string) :
  occurs ");" sql = false -> parse_schema sql = [].
Proof.
  intros H. unfold parse_schema, finditer.
  now rewrite finditer_without_close.
Qed.

Lemma no_closing_no_tables_witness :
  occurs ");" "CREATE TABLE t (id INTEGER, name TEXT) ;" = false /\
  parse_schema "CREATE TABLE t (id INTEGER, name TEXT) ;" = [].
Proof.
  assert (H : occurs ");" "CREATE TABLE t (id INTEGER, name TEXT) ;" = false)
    by reflexivity.
  split; [exact H | exact (no_closing_no_tables _ H)].
Defined.

(** ** Further properties of [diff_schemas] *)

Lemma for_each_total {A S : Type} (xs : list A) (f : A -> S -> option S) :
  (forall x s, In x xs -> exists s', f x s = Some s') ->
  forall s, exists s', for_each xs f s = Some s'.
Proof.
  induction xs as [|x xs IH]; intros H s; simpl; [now exists s|].
  destruct (H x s (or_introl eq_refl)) as [s1 ->]. simpl.
  apply IH. intros y t Hy. apply H. now right.
Qed.

Lemma get_of_key {V : Type} (d : dict V) (k : string) :
  In k (Dict.keys d) -> exists v, Dict.get d k = Some v.
Proof.
  intros H. destruct (Dict.get d k) as [v|] eqn:E; [now exists v|].
  apply get_none_iff in E. contradiction.
Qed.

Ltac run_loop :=
  match goal with
  | |- context [for_each ?xs ?f ?s] =>
      let s' := fresh "ch" in
      let E := fresh "E" in
      let H := fresh "H" in
      assert (H : exists s', for_each xs f s = Some s');
      [ apply for_each_total | destruct H as [s' E]; rewrite E, ?bind_some ]
  end.

(** X4. [diff_schemas] returns a Change Set for every pair of inputs:
    each subscript it evaluates is on a key that is present, so no
    [KeyError] is raised, whatever the two dictionaries hold. *)
Theorem diff_schemas_never_raises (old new : schema) :
  exists ch, diff_schemas old new = Some ch.
Proof.
  unfold diff_schemas.
  run_loop.
  { intros t s Ht. destruct (negb (Dict.mem t old)); [|now exists s].
    destruct (get_of_key new t Ht) as [cols ->]. simpl. eauto. }
  run_loop.
  { intros t s Ht. destruct (negb (Dict.mem t new)); [|now exists s].
    destruct (get_of_key old t Ht) as [cols ->]. simpl. eauto. }
  apply for_each_total. intros t s Ht.
  unfold Dict.mem at 1.
  destruct (Dict.get old t) as [ocols|] eqn:Hold; [|now exists s].
  destruct (get_of_key new t Ht) as [ncols Hnew]. rewrite Hnew, bind_some.
  run_loop.
  { intros c s' Hc. simpl.
    destruct (negb (Dict.mem c ocols)); [|now exists s'].
    destruct (get_of_key ncols c Hc) as [d ->]. simpl. eauto. }
  apply for_each_total. intros c s' Hc. simpl.
  destruct (negb (Dict.mem c ncols)); [|now exists s'].
  destruct (get_of_key ocols c Hc) as [d ->]. simpl. eauto.
Qed.

Lemma get_minus {V W : Type} (a : dict V) (b : dict W) (k : string) :
  Dict.get (minus a b) k = if Dict.mem k b then None else Dict.get a k.
Proof.
  unfold minus. induction a as [|[k' v] a IH]; simpl.
  - now destruct (Dict.mem k b).
  - destruct (String.eqb_spec k' k) as [->|Hne].
    + destruct (Dict.mem k b); simpl; [exact IH|].
      now rewrite String.eqb_refl.
    + destruct (Dict.mem k' b); simpl; [exact IH|].
      destruct (String.eqb_spec k' k); [contradiction | exact IH].
Qed.

Lemma mem_minus {V W : Type} (a : dict V) (b : dict W) (k : string) :
  Dict.mem k (minus a b) = Dict.mem k a && negb (Dict.mem k b).
Proof.
  unfold Dict.mem at 1 2. rewrite get_minus.
  destruct (Dict.mem k b); simpl; [now rewrite andb_false_r|].
  now rewrite andb_true_r.
Qed.

(** The column changes listed for a table both schemas have. *)
Lemma columns_of_column_changes (pick : columns -> columns -> columns)
    (other l : schema) (t : string) (lc oc : columns) :
  Dict.wf l -> Dict.get l t = Some lc -> Dict.get other t = Some oc ->
  columns_of (column_changes pick other l) t = pick lc oc.
Proof.
  intros Hwf Hl Ho. unfold columns_of.
  destruct (Dict.get (column_changes pick other l) t) as [cs|] eqn:E.
  - apply get_In, In_column_changes in E as (lc' & oc' & Hin & Ho' & -> & _).
    apply (wf_get l t lc' Hwf) in Hin. congruence.
  - destruct (pick lc oc) as [|cd cs] eqn:Hp; [reflexivity|].
    apply get_none_iff in E. exfalso. apply E.
    change t with (fst (t, pick lc oc)). apply in_map.
    apply In_column_changes. exists lc, oc.
    repeat split; [now apply get_In | exact Ho | now rewrite Hp].
Qed.

(** X5. The Change Set accounts for the whole difference in names:
    a table is in [new] exactly when it is in [old] and not removed, or
    added; for a table both schemas have, a column is in the new table
    exactly when it is in the old one and not removed, or added; and an
    added column carries the definition the new schema gives it. *)
Theorem change_set_rebuilds_new_names (old new : schema) :
  wf_schema old -> wf_schema new ->
  exists ch,
    diff_schemas old new = Some ch /\
    (forall t,
       Dict.mem t new =
       Dict.mem t old && negb (Dict.mem t (removed_tables ch))
       || Dict.mem t (added_tables ch)) /\
    (forall t ocols ncols,
       Dict.get old t = Some ocols -> Dict.get new t = Some ncols ->
       (forall c,
          Dict.mem c ncols =
          Dict.mem c ocols
            && negb (Dict.mem c (columns_of (removed_columns ch) t))
          || Dict.mem c (columns_of (added_columns ch) t)) /\
       (forall c defn,
          Dict.get (columns_of (added_columns ch) t) c = Some defn ->
          Dict.get ncols c = Some defn)).
Proof.
  intros Hold Hnew. rewrite (diff_schemas_closed old new Hold Hnew).
  eexists. split; [reflexivity|]. simpl. split.
  - intros t. rewrite !mem_minus.
    now destruct (Dict.mem t old), (Dict.mem t new).
  - intros t ocols ncols Ho Hn.
    unfold added_columns_of, removed_columns_of.
    rewrite !(columns_of_column_changes _ old new t ncols ocols)
      by (try apply Hnew; assumption).
    split.
    + intros c. rewrite !mem_minus.
      now destruct (Dict.mem c ocols), (Dict.mem c ncols).
    + intros c defn. rewrite get_minus.
      now destruct (Dict.mem c ocols).
Qed.

Lemma change_set_rebuilds_new_names_witness :
  wf_schema old_ab /\ wf_schema new_ba /\
  exists ch,
    diff_schemas old_ab new_ba = Some ch /\
    (forall t,
       Dict.mem t new_ba =
       Dict.mem t old_ab && negb (Dict.mem t (removed_tables ch))
       || Dict.mem t (added_tables ch)).
Proof.
  assert (Hold : wf_schema old_ab) by (apply wf_schemab_sound; reflexivity).
  assert (Hnew : wf_schema new_ba) by (apply wf_schemab_sound; reflexivity).
  split; [exact Hold|]. split; [exact Hnew|].
  destruct (change_set_rebuilds_new_names old_ab new_ba Hold Hnew)
    as (ch & Hd & Ht & _).
  exists ch. split; [exact Hd | exact Ht].
Defined.

Lemma filter_nil {X : Type} (P : X -> bool) (l : list X) :
  (forall x, In x l -> P x = false) -> filter P l = [].
Proof.
  induction l as [|x l IH]; intros H; simpl; [reflexivity|].
  rewrite (H x) by now left. apply IH. intros y Hy. apply H. now right.
Qed.

Lemma flat_map_nil {X Y : Type} (f : X -> list Y) (l : list X) :
  (forall x, In x l -> f x = []) -> flat_map f l = [].
Proof.
  induction l as [|x l IH]; intros H; simpl; [reflexivity|].
  rewrite (H x) by now left. apply IH. intros y Hy. apply H. now right.
Qed.

Lemma minus_nil {V W : Type} (a : dict V) (b : dict W) :
  (forall k, Dict.mem k a = true -> Dict.mem k b = true) -> minus a b = [].
Proof.
  intros H. apply filter_nil. intros [k v] Hin. simpl.
  rewrite H; [reflexivity|]. apply mem_true_iff.
  change k with (fst (k, v)). now apply in_map.
Qed.

Lemma mem_nil_minus {V W : Type} (a : dict V) (b : dict W) (k : string) :
  minus a b = [] -> Dict.mem k a = true -> Dict.mem k b = true.
Proof.
  intros E Ha. assert (H := mem_minus a b k). rewrite E, Ha in H.
  simpl in H. now destruct (Dict.mem k b).
Qed.

Lemma no_changes_same_names (old new : schema) :
  wf_schema old -> wf_schema new ->
  diff_schemas old new = Some no_changes -> same_names old new.
Proof.
  intros Hold Hnew. rewrite (diff_schemas_closed old new Hold Hnew).
  unfold no_changes, same_names.
  intros [= Hat Hrt Hac Hrc]. split.
  - intros t. destruct (Dict.mem t old) eqn:Eo, (Dict.mem t new) eqn:En;
      try reflexivity.
    + rewrite (mem_nil_minus old new t Hrt Eo) in En. discriminate.
    + rewrite (mem_nil_minus new old t Hat En) in Eo. discriminate.
  - intros t ocols ncols Ho Hn c.
    assert (Ha := columns_of_column_changes
                    (fun x y => minus x y) old new t ncols ocols
                    (proj1 Hnew) Hn Ho).
    assert (Hr := columns_of_column_changes
                    (fun x y => minus y x) old new t ncols ocols
                    (proj1 Hnew) Hn Ho).
    fold (added_columns_of old new) in Ha.
    fold (removed_columns_of old new) in Hr.
    rewrite Hac in Ha. rewrite Hrc in Hr.
    unfold columns_of in Ha, Hr. simpl in Ha, Hr.
    destruct (Dict.mem c ocols) eqn:Eo, (Dict.mem c ncols) eqn:En;
      try reflexivity.
    + rewrite (mem_nil_minus ocols ncols c (eq_sym Hr) Eo) in En.
      discriminate.
    + rewrite (mem_nil_minus ncols ocols c (eq_sym Ha) En) in Eo.
      discriminate.
Qed.

Lemma same_names_no_changes (old new : schema) :
  wf_schema old -> wf_schema new ->
  same_names old new -> diff_schemas old new = Some no_changes.
Proof.
  intros Hold Hnew. rewrite (diff_schemas_closed old new Hold Hnew).
  unfold no_changes, same_names. intros [Ht Hc].
  assert (Hat : minus new old = [])
    by (apply minus_nil; intros k Hk; now rewrite Ht).
  assert (Hrt : minus old new = [])
    by (apply minus_nil; intros k Hk; now rewrite <- Ht).
  assert (Hcols : forall pick,
             (forall t ocols ncols,
                Dict.get old t = Some ocols -> Dict.get new t = Some ncols ->
                pick ncols ocols = []) ->
             column_changes pick old new = []).
  { intros pick Hpick. apply flat_map_nil. intros [t ncols] Hin.
    destruct (Dict.get old t) as [ocols|] eqn:Ho; [|reflexivity].
    rewrite (Hpick t ocols ncols Ho); [reflexivity|].
    apply wf_get; [apply Hnew | exact Hin]. }
  unfold added_columns_of, removed_columns_of.
  rewrite Hat, Hrt, !Hcols; [reflexivity | |].
  - intros t ocols ncols Ho Hn. apply minus_nil. intros c Hm.
    now rewrite <- (Hc t ocols ncols Ho Hn).
  - intros t ocols ncols Ho Hn. apply minus_nil. intros c Hm.
    now rewrite (Hc t ocols ncols Ho Hn).
Qed.

(** X6. The Change Set is empty exactly when the two schemas have the
    same table names and, table by table, the same column names: column
    definitions are never compared, so a changed type goes unnoticed. *)
Theorem no_changes_iff_same_names (old new : schema) :
  wf_schema old -> wf_schema new ->
  (diff_schemas old new = Some no_changes <-> same_names old new).
Proof.
  intros Hold Hnew. split.
  - now apply no_changes_same_names.
  - now apply same_names_no_changes.
Qed.

Lemma no_changes_iff_same_names_witness :
  wf_schema schema_id_integer /\ wf_schema schema_id_text /\
  same_names schema_id_integer schema_id_text /\
  diff_schemas schema_id_integer schema_id_text = Some no_changes.
Proof.
  assert (Hold : wf_schema schema_id_integer)
    by (apply wf_schemab_sound; reflexivity).
  assert (Hnew : wf_schema schema_id_text)
    by (apply wf_schemab_sound; reflexivity).
  assert (Hsame : same_names schema_id_integer schema_id_text).
  { split.
    - intros t. unfold Dict.mem, schema_id_integer, schema_id_text.
      cbn [Dict.get]. now destruct (String.eqb "t" t).
    - intros t ocols ncols. unfold schema_id_integer, schema_id_text.
      cbn [Dict.get]. destruct (String.eqb "t" t); [|discriminate].
      intros [= <-] [= <-] c. unfold Dict.mem. cbn [Dict.get].
      now destruct (String.eqb "id" c). }
  split; [exact Hold|]. split; [exact Hnew|]. split; [exact Hsame|].
  exact (proj2 (no_changes_iff_same_names _ _ Hold Hnew) Hsame).
Defined.

Lemma wf_schema_minus {W : Type} (a : schema) (b : dict W) :
  wf_schema a -> wf_schema (minus a b).
Proof.
  intros [H1 H2]. split; [now apply wf_minus|].
  unfold minus. rewrite Forall_forall in *. intros tc Hin.
  apply filter_In in Hin as [Hin _]. auto.
Qed.

Lemma wf_schema_column_changes (pick : columns -> columns -> columns)
    (other l : schema) :
  (forall lc oc, In lc (map snd l) -> In oc (map snd other) ->
                 Dict.wf (pick lc oc)) ->
  Dict.wf l -> wf_schema (column_changes pick other l).
Proof.
  intros Hpick Hl. split; [now apply wf_column_changes|].
  apply Forall_forall. intros [t cs] Hin. simpl.
  apply In_column_changes in Hin as (lc & oc & Hin & Hg & -> & _).
  apply Hpick.
  - change lc with (snd (t, lc)). now apply in_map.
  - apply get_In in Hg. change oc with (snd (t, oc)). now apply in_map.
Qed.

(** X7. The Change Set is well formed: its four maps are proper
    dictionaries; a table listed under added or removed columns is in
    both schemas, is in neither table map and has at least one column
    listed; and no column of a table is both added and removed. *)
Theorem change_set_well_formed (old new : schema) :
  wf_schema old -> wf_schema new ->
  exists ch,
    diff_schemas old new = Some ch /\
    (wf_schema (added_tables ch) /\ wf_schema (removed_tables ch) /\
     wf_schema (added_columns ch) /\ wf_schema (removed_columns ch)) /\
    (forall t cs,
       In (t, cs) (added_columns ch) \/ In (t, cs) (removed_columns ch) ->
       cs <> [] /\ Dict.mem t old = true /\ Dict.mem t new = true /\
       Dict.mem t (added_tables ch) = false /\
       Dict.mem t (removed_tables ch) = false) /\
    (forall t c,
       Dict.mem c (columns_of (added_columns ch) t) &&
       Dict.mem c (columns_of (removed_columns ch) t) = false).
Proof.
  intros Hold Hnew. rewrite (diff_schemas_closed old new Hold Hnew).
  eexists. split; [reflexivity|]. simpl.
  assert (Hvals : forall (s : schema) cols,
             wf_schema s -> In cols (map snd s) -> Dict.wf cols).
  { intros s cols [_ Hs] Hin. apply in_map_iff in Hin as [tc [<- Hin]].
    rewrite Forall_forall in Hs. now apply Hs. }
  split; [|split].
  - split; [now apply wf_schema_minus|].
    split; [now apply wf_schema_minus|].
    split; (apply wf_schema_column_changes; [|apply Hnew]).
    + intros lc oc Hlc _. apply wf_minus. now apply (Hvals new).
    + intros lc oc _ Hoc. apply wf_minus. now apply (Hvals old).
  - intros t cs Hin.
    assert (H : exists lc oc, In (t, lc) new /\ Dict.get old t = Some oc /\
                              cs <> []).
    { destruct Hin as [Hc|Hc];
        apply In_column_changes in Hc as (lc & oc & Hl & Hg & _ & Hne);
        now exists lc, oc. }
    destruct H as (lc & oc & Hl & Hg & Hne).
    assert (Ho : Dict.mem t old = true) by (unfold Dict.mem; now rewrite Hg).
    assert (Hn : Dict.mem t new = true).
    { apply mem_true_iff. change t with (fst (t, lc)). now apply in_map. }
    rewrite !mem_minus, Ho, Hn. auto.
  - intros t c.
    destruct (Dict.get old t) as [oc|] eqn:Ho.
    + destruct (Dict.get new t) as [nc|] eqn:Hn.
      * unfold added_columns_of, removed_columns_of.
        rewrite !(columns_of_column_changes _ old new t nc oc)
          by (try apply Hnew; assumption).
        rewrite !mem_minus.
        now destruct (Dict.mem c oc), (Dict.mem c nc).
      * assert (E : columns_of (added_columns_of old new) t = []).
        { unfold columns_of.
          destruct (Dict.get (added_columns_of old new) t) eqn:E;
            [|reflexivity].
          apply get_In, In_column_changes in E as (lc & _ & Hin & _).
          apply (wf_get new t lc (proj1 Hnew)) in Hin. congruence. }
        now rewrite E.
    + assert (E : columns_of (added_columns_of old new) t = []).
      { unfold columns_of.
        destruct (Dict.get (added_columns_of old new) t) eqn:E;
          [|reflexivity].
        apply get_In, In_column_changes in E as (_ & oc & _ & Hg & _).
        congruence. }
      now rewrite E.
Qed.

Lemma change_set_well_formed_witness :
  wf_schema old_ab /\ wf_schema new_ba /\
  exists ch,
    diff_schemas old_ab new_ba = Some ch /\
    wf_schema (added_columns ch) /\ wf_schema (removed_columns ch).
Proof.
  assert (Hold : wf_schema old_ab) by (apply wf_schemab_sound; reflexivity).
  assert (Hnew : wf_schema new_ba) by (apply wf_schemab_sound; reflexivity).
  split; [exact Hold|]. split; [exact Hnew|].
  destruct (change_set_well_formed old_ab new_ba Hold Hnew)
    as (ch & Hd & (_ & _ & Ha & Hr) & _).
  exists ch. split; [exact Hd|]. split; [exact Ha | exact Hr].
Defined.

(** ** Further properties of [generate_migration] *)

Lemma up_lines_closed (ch : changes) (dialect : string) :
  up_lines (render_lines ch dialect) =
  "-- Up" :: map create_line (added_tables ch)
          ++ map drop_table_line (removed_tables ch)
          ++ flat_map add_column_lines (added_columns ch)
          ++ flat_map (drop_column_lines dialect) (removed_columns ch).
Proof.
  rewrite render_lines_closed. cbn [up_lines]. unfold statements.
  simpl map. rewrite !map_app, !map_map, !map_flat_map.
  f_equal. f_equal; [apply map_ext; now intros [] |].
  f_equal; [apply map_ext; now intros [] |].
  f_equal; apply flat_map_ext_all; intros [table cols];
    unfold add_column_lines, drop_column_lines;
    rewrite map_map; apply map_ext; now intros [].
Qed.

Lemma down_lines_closed (ch : changes) (dialect : string) :
  down_lines (render_lines ch dialect) =
  "-- Down" :: map drop_table_line (added_tables ch)
            ++ map create_line (removed_tables ch)
            ++ flat_map (drop_column_lines dialect) (added_columns ch)
            ++ flat_map add_column_lines (removed_columns ch).
Proof.
  rewrite render_lines_closed. cbn [down_lines]. unfold statements.
  simpl map. rewrite !map_app, !map_map, !map_flat_map.
  f_equal. f_equal; [apply map_ext; now intros [] |].
  f_equal; [apply map_ext; now intros [] |].
  f_equal; apply flat_map_ext_all; intros [table cols];
    unfold add_column_lines, drop_column_lines;
    rewrite map_map; apply map_ext; now intros [].
Qed.

Lemma Permutation_swap_pairs {X : Type} (a b c d c' d' : list X) :
  Permutation c c' -> Permutation d d' ->
  Permutation (a ++ b ++ c ++ d) (b ++ a ++ d' ++ c').
Proof.
  intros Hc Hd. rewrite !app_assoc. rewrite <- !(app_assoc _ _ d).
  rewrite <- !(app_assoc _ _ c'). apply Permutation_app.
  - apply Permutation_app_comm.
  - rewrite Hc, Hd. apply Permutation_app_comm.
Qed.

(** X8. Rolling back is migrating the other way: for every dialect the
    Down statements of the migration from [old] to [new] are the Up
    statements of the migration from [new] to [old], and the other way
    round; only the order in which the tables of the column changes come
    may differ. *)
Theorem down_is_up_of_reverse (old new : schema) (dialect : string) :
  wf_schema old -> wf_schema new ->
  exists fwd bwd,
    diff_schemas old new = Some fwd /\
    diff_schemas new old = Some bwd /\
    Permutation (tl (up_lines (render_lines bwd dialect)))
                (tl (down_lines (render_lines fwd dialect))) /\
    Permutation (tl (down_lines (render_lines bwd dialect)))
                (tl (up_lines (render_lines fwd dialect))).
Proof.
  intros Hold Hnew.
  rewrite (diff_schemas_closed old new Hold Hnew).
  rewrite (diff_schemas_closed new old Hnew Hold).
  do 2 eexists. do 2 (split; [reflexivity|]).
  rewrite !up_lines_closed, !down_lines_closed. cbn [tl]. simpl.
  assert (P1 : Permutation (added_columns_of new old)
                           (removed_columns_of old new))
    by (apply (column_changes_swap (fun x y => minus x y));
        [apply Hold | apply Hnew]).
  assert (P2 : Permutation (removed_columns_of new old)
                           (added_columns_of old new))
    by (apply (column_changes_swap (fun x y => minus y x));
        [apply Hold | apply Hnew]).
  split; apply Permutation_swap_pairs; now apply Permutation_flat_map.
Qed.

Lemma down_is_up_of_reverse_witness :
  wf_schema old_ab /\ wf_schema new_ba /\
  exists fwd bwd,
    diff_schemas old_ab new_ba = Some fwd /\
    diff_schemas new_ba old_ab = Some bwd /\
    Permutation (tl (up_lines (render_lines bwd "postgresql")))
                (tl (down_lines (render_lines fwd "postgresql"))) /\
    Permutation (tl (down_lines (render_lines bwd "postgresql")))
                (tl (up_lines (render_lines fwd "postgresql"))).
Proof.
  split; [apply wf_schemab_sound; reflexivity|].
  split; [apply wf_schemab_sound; reflexivity|].
  apply (down_is_up_of_reverse old_ab new_ba "postgresql");
    apply wf_schemab_sound; reflexivity.
Defined.

Lemma sqlite_drop_is_comment (tc : string * columns) :
  forallb is_comment (drop_column_lines "sqlite" tc) = true.
Proof.
  unfold drop_column_lines. induction (snd tc) as [|cd cols IH];
    [reflexivity|].
  cbn [map forallb]. rewrite IH, andb_true_r.
  unfold is_comment, drop_column_line, sqlite_drop_column_comment.
  reflexivity.
Qed.

Lemma sqlite_drop_on_one_line (tc : string * columns) :
  names_on_one_line tc = true ->
  forallb newline_free (drop_column_lines "sqlite" tc) = true.
Proof.
  unfold names_on_one_line, drop_column_lines. intros H.
  apply andb_true_iff in H as [Ht Hcols].
  induction (snd tc) as [|cd cols IH]; [reflexivity|].
  cbn [forallb] in Hcols. apply andb_true_iff in Hcols as [Hc Hcols].
  cbn [map forallb]. rewrite (IH Hcols), andb_true_r.
  unfold drop_column_line, sqlite_drop_column_comment, newline_free in *.
  cbn [String.eqb Ascii.eqb Bool.eqb].
  rewrite !string_forallb_app, Ht, Hc. reflexivity.
Qed.

Lemma sqlite_drops (l : dict columns) :
  forallb names_on_one_line l = true ->
  forallb is_comment (flat_map (drop_column_lines "sqlite") l) = true /\
  forallb newline_free (flat_map (drop_column_lines "sqlite") l) = true.
Proof.
  induction l as [|tc l IH]; [now split|]. cbn [forallb flat_map].
  intros H. apply andb_true_iff in H as [Htc Hl].
  destruct (IH Hl) as [IH1 IH2].
  now rewrite !forallb_app, sqlite_drop_is_comment,
    (sqlite_drop_on_one_line tc Htc), IH1, IH2.
Qed.

(** X9. Under the dialect ["sqlite"], which is the one [main] uses when
    none is given, a migration that only adds columns has a Down block
    of comment lines alone, and one that only removes columns has an Up
    block of comment lines alone: run as SQL, that block changes nothing.
    The lines are those of the rendered text, so the table and column
    names must hold no newline, as the names the parser records do. *)
Theorem sqlite_column_drops_are_comments (ch : changes) :
  added_tables ch = [] -> removed_tables ch = [] ->
  forallb names_on_one_line (added_columns ch) = true ->
  forallb names_on_one_line (removed_columns ch) = true ->
  let st := render_lines ch "sqlite" in
  (all_empty ch = false ->
   generate_migration ch "sqlite" =
   join nl (up_lines st) +++ nl +++ nl +++ join nl (down_lines st) +++ nl) /\
  (removed_columns ch = [] ->
   lines_of (join nl (down_lines st)) = down_lines st /\
   forallb is_comment (lines_of (join nl (down_lines st))) = true) /\
  (added_columns ch = [] ->
   lines_of (join nl (up_lines st)) = up_lines st /\
   forallb is_comment (lines_of (join nl (up_lines st))) = true).
Proof.
  intros Hat Hrt Hadd Hrem st. subst st.
  destruct (sqlite_drops _ Hadd) as [Ca Na].
  destruct (sqlite_drops _ Hrem) as [Cr Nr].
  split; [|split]; intros Hc.
  - unfold generate_migration. rewrite render_lines_closed.
    cbn [has_changes up_lines down_lines]. now rewrite Hc.
  - rewrite down_lines_closed, Hat, Hrt, Hc. cbn [map flat_map app].
    rewrite app_nil_r. unfold lines_of, nl.
    rewrite split_on_join;
      [ | discriminate
        | cbn [forallb]; apply andb_true_iff; split; [reflexivity | exact Na] ].
    split; [reflexivity|]. cbn [forallb]. now rewrite Ca.
  - rewrite up_lines_closed, Hat, Hrt, Hc. cbn [map flat_map app].
    unfold lines_of, nl.
    rewrite split_on_join;
      [ | discriminate
        | cbn [forallb]; apply andb_true_iff; split; [reflexivity | exact Nr] ].
    split; [reflexivity|]. cbn [forallb]. now rewrite Cr.
Qed.

Lemma sqlite_column_drops_are_comments_witness :
  added_tables ch_email = [] /\ removed_tables ch_email = [] /\
  forallb names_on_one_line (added_columns ch_email) = true /\
  forallb names_on_one_line (removed_columns ch_email) = true /\
  removed_columns ch_email = [] /\
  forallb is_comment
    (lines_of (join nl (down_lines (render_lines ch_email "sqlite")))) = true.
Proof.
  split; [reflexivity|]. split; [reflexivity|]. split; [reflexivity|].
  split; [reflexivity|]. split; [reflexivity|].
  exact (proj2 (proj1 (proj2 (sqlite_column_drops_are_comments ch_email
                                eq_refl eq_refl eq_refl eq_refl))
                  eq_refl)).
Defined.

(** ** Properties of [main] *)

Lemma any_value_nonempty (ch : changes) :
  existsb Dict.nonempty
    [added_tables ch; removed_tables ch; added_columns ch; removed_columns ch]
  = negb (all_empty ch).
Proof.
  unfold all_empty. rewrite negb_involutive. simpl.
  now rewrite orb_false_r, !orb_assoc.
Qed.

(** Every way [main] can end, when it ends without an exception. *)
Lemma main_cases (args : list string) (w : world) (o : outcome) :
  main args w = Some o -> main_shape args w o.
Proof.
  unfold main.
  destruct (in_list "--help" args || in_list "-h" args);
    [intros [= <-]; constructor|].
  set (opts := parse_args args default_options).
  destruct (List.length (files opts) <? 2); [intros [= <-]; constructor|].
  destruct (node_at w (nth 0 (files opts) EmptyString)) as [[old_text| |]|];
    [ | | discriminate | intros [= <-]; constructor].
  - destruct (node_at w (nth 1 (files opts) EmptyString)) as [[new_text| |]|];
      [ | discriminate | discriminate | intros [= <-]; constructor].
    destruct (diff_schemas (parse_schema old_text) (parse_schema new_text))
      as [ch|]; [|discriminate].
    rewrite bind_some, any_value_nonempty, negb_involutive.
    destruct (all_empty ch) eqn:Hch; [intros [= <-]; constructor|].
    destruct (dry_run opts) eqn:Hdry;
      [intros [= <-]; now constructor|].
    destruct (output_path opts) as [path|] eqn:Hout;
      [|intros [= <-]; now constructor].
    destruct (is_empty path) eqn:Hempty; [intros [= <-]; now constructor|].
    destruct (writable w path) eqn:Hw; [|discriminate].
    intros [= <-]. constructor; try assumption.
    intros ->. discriminate.
  - destruct (node_at w (nth 1 (files opts) EmptyString)) as [[new_text| |]|];
      [ discriminate | discriminate | discriminate
      | intros [= <-]; constructor ].
Qed.

Lemma fold_left_extends {X : Type} (step : string -> X -> string)
    (l : list X) :
  (forall out x, exists t, step out x = out +++ t) ->
  forall out, exists tail, fold_left step l out = out +++ tail.
Proof.
  intros Hstep. induction l as [|x l IH]; intros out; simpl.
  - exists EmptyString. clear. induction out; simpl; congruence.
  - destruct (Hstep out x) as [t ->]. destruct (IH (out +++ t)) as [tail ->].
    exists (t +++ tail). apply append_assoc.
Qed.

Lemma dry_run_report_head (ch : changes) :
  exists tail, dry_run_report ch = "=== DRY RUN ===" +++ nl +++ nl +++ tail.
Proof.
  assert (G : exists t,
             dry_run_report ch = print (print "" "=== DRY RUN ===") "" +++ t).
  { unfold dry_run_report. cbv zeta.
    set (head := print (print "" "=== DRY RUN ===") "").
    assert (Hext : forall a b, (exists t, b = a +++ t) ->
                   (exists t, a = head +++ t) -> exists t, b = head +++ t).
    { intros a b [t ->] [t' ->]. exists (t' +++ t). apply append_assoc. }
    assert (Hrefl : forall a, exists t, a = a +++ t).
    { intros a. exists EmptyString. induction a; simpl; congruence. }
    assert (Hprint : forall a x, exists t, print a x = a +++ t).
    { intros a x. now exists (x +++ nl). }
    destruct (Dict.nonempty (added_tables ch)),
             (Dict.nonempty (removed_tables ch)),
             (Dict.nonempty (added_columns ch)),
             (Dict.nonempty (removed_columns ch));
      repeat first
        [ apply Hrefl
        | eapply Hext;
          [ first [ apply Hprint
                  | apply fold_left_extends; intros out [table cols];
                    apply Hprint ]
          | ] ]. }
  destruct G as [t Ht]. exists t. rewrite Ht. reflexivity.
Qed.

Lemma migration_head (ch : changes) (d : string) :
  all_empty ch = false ->
  exists tail, generate_migration ch d = "-- Up" +++ nl +++ tail.
Proof.
  intros H. rewrite generate_migration_closed, H.
  unfold statements. simpl map.
  match goal with
  | |- context [join nl ("-- Up" :: ?l)] => destruct l as [|x up]
  end.
  - eexists. reflexivity.
  - eexists. change (join nl ("-- Up" :: x :: up))
      with ("-- Up" +++ nl +++ join nl (x :: up)).
    rewrite !append_assoc. reflexivity.
Qed.

(** X10. [main] never prints or writes the text "-- No changes detected":
    it leaves before rendering when nothing changed.  What it writes to
    the output file is always a migration that opens with the "-- Up"
    header. *)
Theorem main_never_emits_sentinel (args : list string) (w : world)
    (o : outcome) :
  main args w = Some o ->
  stdout o <> "-- No changes detected" +++ nl /\
  (forall path text,
     written o = Some (path, text) ->
     text <> "-- No changes detected" +++ nl /\
     startswith text ("-- Up" +++ nl) = true).
Proof.
  intros H. apply main_cases in H.
  destruct H as [ | | path | | ch Hch Hdry | ch Hch Hdry
                | ch path Hch Hdry Hout Hpath Hw ]; simpl;
    try (split; [discriminate | intros p t; discriminate]).
  - split; [|intros p t; discriminate].
    destruct (dry_run_report_head ch) as [tail ->]. discriminate.
  - split; [|intros p t; discriminate].
    destruct (migration_head ch (dialect (parse_args args default_options))
                Hch) as [tail ->]. discriminate.
  - split; [discriminate|]. intros p t [= <- <-].
    destruct (migration_head ch (dialect (parse_args args default_options))
                Hch) as [tail ->].
    split; [discriminate|]. simpl. now destruct tail.
Qed.

Lemma main_never_emits_sentinel_witness :
  main ["old.sql"; "new.sql"; "--output"; "up.sql"]
       (two_files "CREATE TABLE t (id INTEGER);"
                  "CREATE TABLE t (id INTEGER, email TEXT);")
  = Some (mk_outcome "" ("Migration written to up.sql" +++ nl) 0
            (Some ("up.sql", generate_migration ch_email "sqlite"))) /\
  startswith (generate_migration ch_email "sqlite") ("-- Up" +++ nl) = true.
Proof.
  assert (H : main ["old.sql"; "new.sql"; "--output"; "up.sql"]
                (two_files "CREATE TABLE t (id INTEGER);"
                           "CREATE TABLE t (id INTEGER, email TEXT);")
              = Some (mk_outcome "" ("Migration written to up.sql" +++ nl) 0
                        (Some ("up.sql",
                               generate_migration ch_email "sqlite"))))
    by reflexivity.
  split; [exact H|].
  exact (proj2 (proj2 (main_never_emits_sentinel _ _ _ H) "up.sql"
                  (generate_migration ch_email "sqlite") eq_refl)).
Defined.

(** X11. However [main] ends without an exception, it ends in one of
    three ways: exit status 1 with a message that opens with "Error: "
    on the error stream, nothing on the output stream and no file; exit
    status 0 with text on the output stream, nothing on the error stream
    and no file; or exit status 0 with the migration written to the path
    given with [--output], a note on the error stream and nothing on the
    output stream.  A file is written only without [--dry-run]. *)
Theorem main_outcome_discipline (args : list string) (w : world)
    (o : outcome) :
  main args w = Some o ->
  (exit_code o = 1 /\ stdout o = "" /\ written o = None /\
   startswith (stderr o) "Error: " = true) \/
  (exit_code o = 0 /\ stderr o = "" /\ written o = None /\ stdout o <> "") \/
  (exit_code o = 0 /\ stdout o = "" /\
   dry_run (parse_args args default_options) = false /\
   exists path text,
     written o = Some (path, text) /\
     output_path (parse_args args default_options) = Some path /\
     stderr o = "Migration written to " +++ path +++ nl).
Proof.
  intros H. apply main_cases in H.
  destruct H as [ | | path | | ch Hch Hdry | ch Hch Hdry
                | ch path Hch Hdry Hout Hpath Hw ]; simpl.
  - right. left. repeat split. discriminate.
  - left. repeat split.
  - left. repeat split.
  - right. left. repeat split. discriminate.
  - right. left. repeat split.
    destruct (dry_run_report_head ch) as [tail ->]. discriminate.
  - right. left. repeat split.
    destruct (migration_head ch (dialect (parse_args args default_options))
                Hch) as [tail ->]. discriminate.
  - right. right. repeat split; try assumption.
    do 2 eexists. repeat split. exact Hout.
Qed.

Lemma main_outcome_discipline_witness :
  main ["only.sql"] (two_files "" "")
  = Some (mk_outcome ""
            ("Error: two schema files required (old and new)." +++ nl)
            1 None) /\
  exit_code (mk_outcome ""
               ("Error: two schema files required (old and new)." +++ nl)
               1 None) = 1.
Proof.
  assert (H : main ["only.sql"] (two_files "" "")
              = Some (mk_outcome ""
                        ("Error: two schema files required (old and new)."
                           +++ nl) 1 None)) by reflexivity.
  split; [exact H|].
  destruct (main_outcome_discipline _ _ _ H) as [(E & _)|[(E & _)|(E & _)]];
    reflexivity.
Defined.



(** X13. With two readable schema files, [main] answers
    "No changes detected between schemas." exactly when the two parsed
    schemas have the same table names and, table by table, the same
    column names, whatever the options; a column whose type changed is
    not reported. *)
Theorem main_no_changes_iff_same_names (args : list string) (w : world)
    (old_path new_path old_text new_text : string) (more : list string) :
  in_list "--help" args || in_list "-h" args = false ->
  files (parse_args args default_options) = old_path :: new_path :: more ->
  node_at w old_path = Some (File old_text) ->
  node_at w new_path = Some (File new_text) ->
  (main args w
   = Some (mk_outcome ("No changes detected between schemas." +++ nl)
             "" 0 None)
   <-> same_names (parse_schema old_text) (parse_schema new_text)).
Proof.
  intros Hhelp Hfiles Hold_file Hnew_file. unfold main.
  rewrite Hhelp, Hfiles. cbn [List.length Nat.ltb Nat.leb nth].
  rewrite Hold_file, Hnew_file.
  assert (Hold : wf_schema (parse_schema old_text))
    by (unfold parse_schema; apply wf_parse_matches; split; constructor).
  assert (Hnew : wf_schema (parse_schema new_text))
    by (unfold parse_schema; apply wf_parse_matches; split; constructor).
  destruct (diff_schemas (parse_schema old_text) (parse_schema new_text))
    as [ch|] eqn:Hdiff;
    [|rewrite (diff_schemas_closed _ _ Hold Hnew) in Hdiff; discriminate].
  rewrite bind_some, any_value_nonempty, negb_involutive.
  destruct (all_empty ch) eqn:Hch.
  - split; [intros _ | reflexivity].
    apply no_changes_same_names; [exact Hold | exact Hnew |].
    rewrite Hdiff. apply all_empty_iff in Hch as (H1 & H2 & H3 & H4).
    destruct ch; simpl in *; subst. reflexivity.
  - split.
    + intros H. exfalso. revert H.
      destruct (dry_run _).
      { destruct (dry_run_report_head ch) as [tail ->]. discriminate. }
      destruct (migration_head ch
                  (dialect (parse_args args default_options)) Hch)
        as [tail Hm].
      destruct (output_path _) as [path|];
        [|rewrite Hm; discriminate].
      destruct (is_empty path); [rewrite Hm; discriminate|].
      destruct (writable w path); discriminate.
    + intros Hsame.
      rewrite (same_names_no_changes _ _ Hold Hnew Hsame) in Hdiff.
      injection Hdiff as <-. discriminate.
Qed.

Lemma main_no_changes_iff_same_names_witness :
  in_list "--help" ["--dialect"; "postgresql"; "old.sql"; "new.sql"]
    || in_list "-h" ["--dialect"; "postgresql"; "old.sql"; "new.sql"]
  = false /\
  files (parse_args ["--dialect"; "postgresql"; "old.sql"; "new.sql"]
           default_options) = "old.sql" :: "new.sql" :: [] /\
  same_names (parse_schema "CREATE TABLE t (id INTEGER);")
             (parse_schema "CREATE TABLE t (id TEXT);") /\
  main ["--dialect"; "postgresql"; "old.sql"; "new.sql"]
       (two_files "CREATE TABLE t (id INTEGER);" "CREATE TABLE t (id TEXT);")
  = Some (mk_outcome ("No changes detected between schemas." +++ nl)
            "" 0 None).
Proof.
  assert (Hsame : same_names (parse_schema "CREATE TABLE t (id INTEGER);")
                             (parse_schema "CREATE TABLE t (id TEXT);")).
  { change (same_names schema_id_integer schema_id_text). split.
    - intros t. unfold Dict.mem, schema_id_integer, schema_id_text.
      cbn [Dict.get]. now destruct (String.eqb "t" t).
    - intros t ocols ncols. unfold schema_id_integer, schema_id_text.
      cbn [Dict.get]. destruct (String.eqb "t" t); [|discriminate].
      intros [= <-] [= <-] c. unfold Dict.mem. cbn [Dict.get].
      now destruct (String.eqb "id" c). }
  split; [reflexivity|]. split; [reflexivity|]. split; [exact Hsame|].
  exact (proj2 (main_no_changes_iff_same_names
                  ["--dialect"; "postgresql"; "old.sql"; "new.sql"]
                  (two_files "CREATE TABLE t (id INTEGER);"
                             "CREATE TABLE t (id TEXT);")
                  "old.sql" "new.sql" _ _ [] eq_refl eq_refl eq_refl eq_refl)
           Hsame).
Defined.

Lemma is_subsequence_cons (x : string) (xs ys : list string) :
  is_subsequence xs ys = true -> is_subsequence (x :: xs) (x :: ys) = true.
Proof. intros H. simpl. now rewrite String.eqb_refl. Qed.

(** The positional arguments a run of the loop adds to [files]. *)
Lemma parse_args_files (args : list string) :
  (forall o, exists fs,
     files (parse_args args o) = files o ++ fs /\
     is_subsequence fs args = true) /\
  (forall arg o, exists fs,
     files (parse_args (arg :: args) o) = files o ++ fs /\
     is_subsequence fs (arg :: args) = true).
Proof.
  induction args as [|a args [IH1 IH2]].
  - split; [intros o; exists []; now rewrite app_nil_r|].
    intros arg o. cbn [parse_args].
    destruct (String.eqb arg "--dialect"), (String.eqb arg "--dry-run"),
      (String.eqb arg "--output"); cbn [files];
      first [ exists []; now rewrite app_nil_r
            | exists [arg]; split; [reflexivity|];
              now apply is_subsequence_cons ].
  - split; [apply IH2|].
    intros arg o.
    assert (Hfile : forall o', files o' = files o ++ [arg] ->
              exists fs, files (parse_args (a :: args) o') = files o ++ fs /\
                         is_subsequence fs (arg :: a :: args) = true).
    { intros o' Ho'. destruct (IH2 a o') as (fs & E & Hs).
      exists (arg :: fs). rewrite E, Ho', <- app_assoc.
      split; [reflexivity | now apply is_subsequence_cons]. }
    assert (Hskip1 : forall o', files o' = files o ->
              exists fs, files (parse_args (a :: args) o') = files o ++ fs /\
                         is_subsequence fs (arg :: a :: args) = true).
    { intros o' Ho'. destruct (IH2 a o') as (fs & E & Hs).
      exists fs. rewrite E, Ho'.
      split; [reflexivity | now apply is_subsequence_skip]. }
    assert (Hskip2 : forall o', files o' = files o ->
              exists fs, files (parse_args args o') = files o ++ fs /\
                         is_subsequence fs (arg :: a :: args) = true).
    { intros o' Ho'. destruct (IH1 o') as (fs & E & Hs).
      exists fs. rewrite E, Ho'.
      split; [reflexivity | now do 2 apply is_subsequence_skip]. }
    cbn [parse_args].
    destruct (String.eqb arg "--dialect"); [now apply Hskip2|].
    destruct (String.eqb arg "--dry-run"); [now apply Hskip1|].
    destruct (String.eqb arg "--output"); [now apply Hskip2|].
    now apply Hfile.
Qed.

(** X14. The files [main] works on are arguments of the command line, in
    the order given: the loop adds to [files] a subsequence of the
    arguments.  When no argument is one of the three option names, every
    argument is a file and the defaults stand: dialect ["sqlite"], no
    dry run, no output path. *)
Theorem positional_arguments_kept :
  (forall args o, exists fs,
     files (parse_args args o) = files o ++ fs /\
     is_subsequence fs args = true) /\
  (forall args,
     forallb (fun arg => negb (is_option_name arg)) args = true ->
     parse_args args default_options = mk_options "sqlite" false None args).
Proof.
  split; [intros args; apply parse_args_files|].
  assert (G : forall args o,
             forallb (fun arg => negb (is_option_name arg)) args = true ->
             parse_args args o =
             mk_options (dialect o) (dry_run o) (output_path o)
               (files o ++ args)).
  { induction args as [|a args IH]; intros o H.
    - simpl. rewrite app_nil_r. now destruct o.
    - cbn [forallb] in H. apply andb_true_iff in H as [Ha H].
      unfold is_option_name in Ha. apply negb_true_iff in Ha.
      apply orb_false_iff in Ha as [Ha Ho].
      apply orb_false_iff in Ha as [Hd Hr].
      cbn [parse_args]. rewrite Hd, Hr, Ho, (IH _ H). cbn [files dialect
        dry_run output_path]. now rewrite <- app_assoc. }
  intros args H. now rewrite (G args default_options H).
Qed.

(** ** Reading back what was rendered *)

Lemma split_ws_token_space (name s : string) :
  is_token name = true ->
  split_ws (name +++ String " " s) = name :: split_ws s.
Proof.
  unfold is_token. induction name as [|c name IH]; [discriminate|].
  simpl negb. rewrite andb_true_l. cbn [string_forallb].
  intros H. apply andb_true_iff in H as [Hc Hn].
  apply negb_true_iff in Hc.
  cbn [String.append split_ws]. rewrite Hc.
  destruct name as [|c' name'].
  - reflexivity.
  - cbn [String.append]. cbn [string_forallb] in Hn.
    apply andb_true_iff in Hn as [Hc' Hn']. apply negb_true_iff in Hc'.
    rewrite Hc'.
    assert (E := IH ltac:(simpl; now rewrite Hc', Hn')).
    cbn [String.append] in E. now rewrite E.
Qed.

Lemma split_on_free (a : string) :
  comma_free a = true -> split_on "," a = [a].
Proof.
  unfold comma_free. induction a as [|c a IH]; [reflexivity|]. simpl.
  intros H. apply andb_true_iff in H as [Hc Ha].
  apply negb_true_iff in Hc. now rewrite Hc, IH.
Qed.

Lemma split_on_app (a b : string) :
  comma_free a = true ->
  split_on "," (a +++ String "," b) = a :: split_on "," b.
Proof.
  unfold comma_free. induction a as [|c a IH]; [reflexivity|]. simpl.
  intros H. apply andb_true_iff in H as [Hc Ha].
  apply negb_true_iff in Hc. now rewrite Hc, IH.
Qed.

Lemma spaces_comma_free (ws : string) :
  string_forallb isspace ws = true -> comma_free ws = true.
Proof.
  unfold comma_free. induction ws as [|c ws IH]; [reflexivity|]. simpl.
  intros H. apply andb_true_iff in H as [Hc H]. rewrite IH by exact H.
  rewrite andb_true_r. revert Hc. by_cases_on c.
Qed.

(** The parts of [renderable_column]. *)
Lemma renderable_column_parts (cd : string * string) :
  renderable_column cd = true ->
  is_token (fst cd) = true /\
  comma_free (column_text cd) = true /\
  semicolon_free (column_text cd) = true /\
  (exists tok toks, split_ws (snd cd) = tok :: toks) /\
  join " " (split_ws (snd cd)) = snd cd /\
  existsb (fun kw => startswith (upper (column_text cd)) kw)
    constraint_keywords = false.
Proof.
  unfold renderable_column. intros H.
  repeat match type of H with
         | _ && _ = true => apply andb_true_iff in H as [H ?]
         end.
  repeat split; try assumption.
  - unfold column_text, comma_free in *.
    rewrite !string_forallb_app. simpl.
    now repeat (apply andb_true_iff; split).
  - unfold column_text, semicolon_free in *.
    rewrite !string_forallb_app. simpl.
    now repeat (apply andb_true_iff; split).
  - destruct (split_ws (snd cd)) as [|tok toks]; [discriminate|].
    now exists tok, toks.
  - now apply String.eqb_eq.
  - now apply negb_true_iff.
Qed.

Lemma strip_column_text (cd : string * string) (ws1 ws2 : string) :
  renderable_column cd = true ->
  string_forallb isspace ws1 = true -> string_forallb isspace ws2 = true ->
  strip (ws1 +++ column_text cd +++ ws2) = column_text cd.
Proof.
  intros H H1 H2.
  destruct (renderable_column_parts cd H)
    as (Hname & _ & _ & (tok & toks & Htoks) & Hjoin & _).
  unfold strip. rewrite lstrip_spaces by exact H1.
  destruct (token_head _ Hname) as (c & r & Hn & Hc).
  assert (Hl : lstrip (column_text cd +++ ws2) = column_text cd +++ ws2).
  { unfold column_text. rewrite Hn. simpl. now rewrite Hc. }
  rewrite Hl. apply rstrip_app_spaces; [|exact H2].
  unfold column_text. do 2 apply last_nonspace_app.
  rewrite <- Hjoin. apply last_nonspace_join.
  - apply split_ws_tokens.
  - rewrite Htoks. discriminate.
Qed.

Lemma parse_line_column_text (acc : columns) (cd : string * string)
    (line : string) :
  renderable_column cd = true -> strip line = column_text cd ->
  parse_line acc line = Dict.set acc (fst cd) (snd cd).
Proof.
  intros H Hs.
  destruct (renderable_column_parts cd H)
    as (Hname & _ & _ & (tok & toks & Htoks) & Hjoin & Hkw).
  unfold parse_line. rewrite Hs, Hkw.
  destruct (token_head _ Hname) as (c & r & Hn & Hc).
  assert (E : is_empty (column_text cd) = false)
    by (unfold column_text; now rewrite Hn).
  rewrite E. unfold column_text.
  change (fst cd +++ " " +++ snd cd) with (fst cd +++ String " " (snd cd)).
  rewrite (split_ws_token_space _ _ Hname), Htoks. cbn [List.length Nat.leb].
  now rewrite <- Htoks, Hjoin.
Qed.

Lemma column_list_texts (cols : columns) :
  column_list cols =
  join (String "," (nl +++ "    ")) (map column_text cols).
Proof.
  unfold column_list. f_equal. apply map_ext. now intros [name defn].
Qed.

Lemma parse_body (cols : columns) :
  forall (acc : columns) (pre : string),
  cols <> [] ->
  forallb renderable_column cols = true ->
  NoDup (Dict.keys acc ++ Dict.keys cols) ->
  string_forallb isspace pre = true ->
  fold_left parse_line
    (split_on ","
       (pre +++ join (String "," (nl +++ "    ")) (map column_text cols)
            +++ nl)) acc
  = acc ++ cols.
Proof.
  induction cols as [|cd cols IH]; intros acc pre Hne Hall Hnd Hpre;
    [congruence|].
  cbn [forallb] in Hall. apply andb_true_iff in Hall as [Hcd Hall].
  destruct (renderable_column_parts cd Hcd) as (_ & Hcf & _).
  assert (Hfresh : ~ In (fst cd) (Dict.keys acc)).
  { intros Hin. apply NoDup_app_remove_r in Hnd as Hacc.
    clear Hacc. revert Hnd Hin. clear.
    induction (Dict.keys acc) as [|k ks IHk]; simpl; [tauto|].
    intros Hnd [->|Hin].
    - inversion Hnd as [|? ? Hk _]; subst. apply Hk.
      apply in_or_app. right. now left.
    - inversion Hnd; subst. auto. }
  destruct cols as [|cd2 cols].
  - cbn [map join].
    rewrite split_on_free.
    + cbn [fold_left].
      rewrite (parse_line_column_text acc cd) by
        (try exact Hcd; now apply strip_column_text).
      rewrite set_fresh by exact Hfresh. now destruct cd.
    + unfold comma_free in *. rewrite !string_forallb_app.
      fold (comma_free pre). rewrite (spaces_comma_free pre Hpre).
      now rewrite Hcf.
  - change (join (String "," (nl +++ "    ")) (map column_text (cd :: cd2 :: cols)))
      with (column_text cd +++
            String "," ((nl +++ "    ") +++
                        join (String "," (nl +++ "    "))
                             (map column_text (cd2 :: cols)))).
    replace (pre +++ (column_text cd +++
                      String "," ((nl +++ "    ") +++
                                  join (String "," (nl +++ "    "))
                                       (map column_text (cd2 :: cols))))
                 +++ nl)
      with ((pre +++ column_text cd) +++
            String "," ((nl +++ "    ") +++
                        join (String "," (nl +++ "    "))
                             (map column_text (cd2 :: cols)) +++ nl))
      by (rewrite !append_assoc; simpl; rewrite ?append_assoc; reflexivity).
    rewrite split_on_app.
    + cbn [fold_left].
      rewrite (parse_line_column_text acc cd);
        [ | exact Hcd
          | rewrite <- (append_nil_r (column_text cd)) at 1;
            now apply strip_column_text ].
      rewrite set_fresh by exact Hfresh.
      rewrite IH; [ | discriminate | exact Hall | | reflexivity ].
      * rewrite <- app_assoc. now destruct cd.
      * rewrite keys_app, <- app_assoc. exact Hnd.
    + unfold comma_free in *. rewrite string_forallb_app.
      fold (comma_free pre). now rewrite (spaces_comma_free pre Hpre), Hcf.
Qed.

(** The body of a rendered CREATE TABLE statement parses back to the
    columns it was rendered from. *)
Lemma parse_columns_table_body (cols : columns) :
  Dict.wf cols -> forallb renderable_column cols = true ->
  parse_columns (table_body cols) = cols.
Proof.
  intros Hwf Hall. destruct cols as [|cd cols]; [reflexivity|].
  unfold parse_columns, table_body. rewrite column_list_texts.
  rewrite <- append_assoc.
  apply (parse_body (cd :: cols) [] (nl +++ "    "));
    [discriminate | exact Hall | exact Hwf | reflexivity].
Qed.

(** ** Matching a rendered statement *)

Lemma match_groups_literal (l : string) (items : list item) (s : string) :
  match_groups (literal l ++ items) (l +++ s) = match_groups items s.
Proof.
  unfold match_groups. induction l as [|c l IH]; [reflexivity|].
  unfold literal in *. cbn [list_ascii_of_string map app String.append].
  cbn [match_items lit quant accepts captures]. rewrite Ascii.eqb_refl.
  unfold consume. cbn [captures].
  destruct (match_items (map lit (list_ascii_of_string l) ++ items)
              (l +++ s)) as [[m r]|];
    destruct (match_items items s) as [[m' r']|]; try discriminate;
    try reflexivity.
  now injection IH as <- <-.
Qed.

Lemma greedy_span_starts (set : ascii -> bool)
    (k : string -> option (matched * string)) (w s : string) :
  string_forallb set w = true ->
  (forall c s', set c = true -> k (String c s') = None) ->
  starts_in set s = false ->
  greedy set k (w +++ s) =
  match k s with
  | Some r => Some (w, r)
  | None => None
  end.
Proof.
  intros Hw Hk Hs. apply greedy_span; [exact Hw | exact Hk |].
  destruct s; [exact I | exact Hs].
Qed.

Lemma match_groups_plus (set : ascii -> bool) (cap : bool)
    (items : list item) (w s : string) :
  w <> EmptyString -> string_forallb set w = true ->
  (forall c s', set c = true -> match_items items (String c s') = None) ->
  starts_in set s = false ->
  match_groups (mk_item set Plus cap :: items) (w +++ s) =
  match match_groups items s with
  | Some (g, r) => Some (if cap then w :: g else g, r)
  | None => None
  end.
Proof.
  intros Hne Hw Hk Hs. destruct w as [|c w]; [congruence|].
  cbn [string_forallb] in Hw. apply andb_true_iff in Hw as [Hc Hw].
  unfold match_groups. cbn [String.append match_items quant accepts captures].
  rewrite Hc, (greedy_span_starts set _ w s Hw Hk Hs).
  destruct (match_items items s) as [[m r]|]; [|reflexivity].
  unfold groups. now destruct cap.
Qed.

Lemma match_groups_star (set : ascii -> bool) (cap : bool)
    (items : list item) (w s : string) :
  string_forallb set w = true ->
  (forall c s', set c = true -> match_items items (String c s') = None) ->
  starts_in set s = false ->
  match_groups (mk_item set Star cap :: items) (w +++ s) =
  match match_groups items s with
  | Some (g, r) => Some (if cap then w :: g else g, r)
  | None => None
  end.
Proof.
  intros Hw Hk Hs. unfold match_groups.
  cbn [match_items quant accepts captures].
  rewrite (greedy_span_starts set _ w s Hw Hk Hs).
  destruct (match_items items s) as [[m r]|]; [|reflexivity].
  unfold grouped, groups. now destruct cap.
Qed.

(** The lazy group runs up to the first [");"]. *)
Lemma lazy_to_close (w rest : string) :
  semicolon_free w = true ->
  lazy dot (match_items (literal ");")) (w +++ ");" +++ rest) =
  Some (w, ([(false, ")"); (false, ";")], rest)).
Proof.
  unfold semicolon_free. induction w as [|c w IH]; intros H.
  - reflexivity.
  - cbn [string_forallb] in H. apply andb_true_iff in H as [Hc Hw].
    apply negb_true_iff in Hc.
    cbn [String.append lazy]. unfold dot at 1.
    assert (Hk : match_items (literal ");") (String c (w +++ ");" +++ rest))
                 = None).
    { unfold literal. cbn [list_ascii_of_string map].
      cbn [match_items lit quant accepts].
      destruct (Ascii.eqb (lower_char c) (lower_char ")")) eqn:E;
        [|reflexivity].
      destruct w as [|c' w'].
      - reflexivity.
      - cbn [String.append string_forallb] in Hw |- *.
        apply andb_true_iff in Hw as [Hc' _]. apply negb_true_iff in Hc'.
        assert (E' : Ascii.eqb (lower_char c') (lower_char ";") = false)
          by (revert Hc'; clear; by_cases_on c').
        now rewrite E'. }
    specialize (IH Hw). cbn [String.append] in Hk, IH.
    rewrite Hk, IH. reflexivity.
Qed.

Lemma space_is_not_paren (c : ascii) :
  isspace c = true -> Ascii.eqb (lower_char c) (lower_char "(") = false.
Proof. by_cases_on c. Qed.

(** A rendered CREATE TABLE statement matches as a whole, whatever comes
    after it: the groups are the table name and the body. *)
Lemma match_create_table (t cl rest : string) :
  t <> EmptyString -> string_forallb isword t = true ->
  semicolon_free cl = true ->
  match_groups pattern (create_table_stmt t cl +++ rest) =
  Some ([t; nl +++ "    " +++ cl +++ nl], rest).
Proof.
  intros Hne Hword Hsemi.
  assert (Hnotspace : forall c, isword c = true -> isspace c = false).
  { intros c Hc. destruct (isspace c) eqn:E; [|reflexivity].
    apply isspace_not_isword in E. congruence. }
  replace (create_table_stmt t cl +++ rest)
    with ("CREATE" +++ " " +++ "TABLE" +++ " " +++ t +++ " " +++ "("
            +++ (nl +++ "    " +++ cl +++ nl) +++ ");" +++ rest)
    by (unfold create_table_stmt; rewrite !append_assoc; simpl;
        rewrite ?append_assoc; reflexivity).
  unfold pattern.
  rewrite match_groups_literal. cbn [app].
  rewrite match_groups_plus;
    [ | discriminate | reflexivity
      | intros c s' Hc; apply lit_rejects; now apply space_is_not_letter
      | reflexivity ].
  rewrite match_groups_literal.
  rewrite match_groups_plus;
    [ | discriminate | reflexivity
      | intros c s' Hc; cbn [match_items quant accepts];
        now rewrite (isspace_not_isword c Hc)
      | destruct t as [|a t']; [congruence|]; simpl in Hword |- *;
        apply andb_true_iff in Hword as [Ha _]; now apply Hnotspace ].
  rewrite match_groups_plus;
    [ | exact Hne | exact Hword
      | intros c s' Hc; apply star_space_paren_none;
        [now apply Hnotspace | now apply paren_is_not_word]
      | reflexivity ].
  rewrite match_groups_star;
    [ | reflexivity
      | intros c s' Hc; apply lit_rejects; now apply space_is_not_paren
      | reflexivity ].
  rewrite match_groups_literal.
  unfold match_groups at 1. cbn [match_items quant accepts captures].
  rewrite lazy_to_close; [reflexivity|].
  unfold semicolon_free in *. rewrite !string_forallb_app, Hsemi.
  reflexivity.
Qed.

(** ** Searching a rendered migration *)

Lemma finditer_from_step (fuel : nat) (items : list item) (s : string) :
  finditer_from (S fuel) items s =
  match match_items items s with
  | Some (m, rest) => groups m :: finditer_from fuel items rest
  | None =>
      match s with
      | EmptyString => []
      | String _ s' => finditer_from fuel items s'
      end
  end.
Proof. reflexivity. Qed.

Lemma finditer_skip (c : ascii) (s : string) :
  match_items pattern (String c s) = None ->
  finditer pattern (String c s) = finditer pattern s.
Proof.
  intros H. unfold finditer. rewrite finditer_from_step, H. reflexivity.
Qed.

Lemma finditer_match (s : string) (g : list string) (rest : string) :
  match_groups pattern s = Some (g, rest) ->
  finditer pattern s = g :: finditer pattern rest.
Proof.
  unfold match_groups.
  destruct (match_items pattern s) as [[m r]|] eqn:Hm; [|discriminate].
  intros [= <- <-]. unfold finditer. rewrite finditer_from_step, Hm.
  f_equal. apply pattern_groups in Hm as (_ & _ & _ & _ & _ & Hlen).
  apply finditer_from_enough; lia.
Qed.

Lemma no_paren_occurs (s : string) :
  string_forallb (fun c => negb (Ascii.eqb c ")")) s = true ->
  occurs ");" s = false.
Proof.
  induction s as [|c s IH]; [reflexivity|]. cbn [string_forallb occurs].
  intros H. apply andb_true_iff in H as [Hc Hs].
  apply negb_true_iff in Hc. rewrite (IH Hs), orb_false_r.
  simpl. now rewrite Hc.
Qed.

Lemma word_is_not_close (c : ascii) :
  isword c = true -> negb (Ascii.eqb c ")") = true.
Proof. by_cases_on c. Qed.

Lemma semicolon_free_column_list (cols : columns) :
  forallb renderable_column cols = true ->
  semicolon_free (column_list cols) = true.
Proof.
  intros H. rewrite column_list_texts. unfold semicolon_free.
  apply join_forall; [reflexivity|].
  rewrite forallb_forall in *. intros x Hx.
  apply in_map_iff in Hx as [cd [<- Hcd]].
  now destruct (renderable_column_parts cd (H cd Hcd)) as (_ & _ & Hs & _).
Qed.

Lemma renderable_table_parts (tc : string * columns) :
  renderable_table tc = true ->
  fst tc <> EmptyString /\ string_forallb isword (fst tc) = true /\
  forallb renderable_column (snd tc) = true.
Proof.
  unfold renderable_table. intros H.
  apply andb_true_iff in H as [H Hcols].
  apply andb_true_iff in H as [Hne Hword].
  repeat split; try assumption. intros E. rewrite E in Hne. discriminate.
Qed.

(** The CREATE TABLE statements of a migration, one per line, are found
    one after the other. *)
Lemma finditer_creates (tables : schema) :
  forall tail,
  tables <> [] -> forallb renderable_table tables = true ->
  occurs ");" tail = false ->
  finditer pattern (join nl (map create_line tables) +++ tail) =
  map (fun tc => [fst tc; table_body (snd tc)]) tables.
Proof.
  induction tables as [|tc tables IH]; intros tail Hne Hall Htail;
    [congruence|].
  cbn [forallb] in Hall. apply andb_true_iff in Hall as [Htc Hall].
  destruct (renderable_table_parts tc Htc) as (Hname & Hword & Hcols).
  assert (Hsemi := semicolon_free_column_list _ Hcols).
  destruct tables as [|tc2 tables].
  - cbn [map join]. unfold create_line.
    rewrite (finditer_match _ _ _
               (match_create_table _ _ tail Hname Hword Hsemi)).
    unfold finditer. now rewrite finditer_without_close.
  - change (join nl (map create_line (tc :: tc2 :: tables)))
      with (create_line tc +++ nl
              +++ join nl (map create_line (tc2 :: tables))).
    rewrite !append_assoc. unfold create_line at 1.
    rewrite (finditer_match _ _ _
               (match_create_table _ _ _ Hname Hword Hsemi)).
    cbn [map]. f_equal.
    unfold nl at 1. cbn [String.append].
    rewrite finditer_skip by reflexivity.
    apply (IH tail); [discriminate | exact Hall | exact Htail].
Qed.

Lemma parse_matches_tables (tables : schema) :
  forall acc : schema,
  NoDup (Dict.keys acc ++ Dict.keys tables) ->
  Forall (fun tc => parse_columns (table_body (snd tc)) = snd tc) tables ->
  fold_left parse_match
    (map (fun tc => [fst tc; table_body (snd tc)]) tables) acc
  = acc ++ tables.
Proof.
  induction tables as [|[t cols] tables IH]; intros acc Hnd Hall.
  - simpl. now rewrite app_nil_r.
  - inversion Hall as [|? ? Hc Hall']; subst. simpl in Hc.
    cbn [map fold_left]. unfold parse_match at 2. cbn [nth fst snd].
    rewrite Hc, set_fresh.
    + rewrite IH; [now rewrite <- app_assoc | | exact Hall'].
      rewrite keys_app, <- app_assoc. exact Hnd.
    + intros Hin. apply NoDup_remove_2 in Hnd. apply Hnd.
      apply in_or_app. now left.
Qed.

Lemma migration_of_added_tables (tc : string * columns) (tables : schema)
    (d : string) :
  generate_migration (mk_changes (tc :: tables) [] [] []) d =
  "-- Up" +++ nl +++
  (join nl (map create_line (tc :: tables)) +++
   (nl +++ nl +++
    join nl ("-- Down" :: map drop_table_line (tc :: tables)) +++ nl)).
Proof.
  assert (Hhas : has_changes (render_lines (mk_changes (tc :: tables) [] [] [])
                                d) = true)
    by (rewrite render_lines_closed; reflexivity).
  unfold generate_migration. rewrite Hhas, up_lines_closed, down_lines_closed.
  cbn [negb added_tables removed_tables added_columns removed_columns
       map flat_map]. rewrite !app_nil_r.
  change (join nl ("-- Up" :: create_line tc :: map create_line tables))
    with ("-- Up" +++ nl +++ join nl (map create_line (tc :: tables))).
  now rewrite !append_assoc.
Qed.

Lemma minus_nil_r {V W : Type} (a : dict V) : minus a (@nil (string * W)) = a.
Proof.
  unfold minus. induction a as [|kv a IH]; simpl; [reflexivity|].
  f_equal. exact IH.
Qed.

Lemma column_changes_nil (pick : columns -> columns -> columns)
    (l : schema) :
  column_changes pick [] l = [].
Proof. apply flat_map_nil. now intros [t cols] _. Qed.

Lemma words_have_no_close (t : string) :
  string_forallb isword t = true ->
  string_forallb (fun c => negb (Ascii.eqb c ")")) t = true.
Proof.
  induction t as [|c t IH]; [reflexivity|]. simpl.
  intros H. apply andb_true_iff in H as [Hc Ht].
  now rewrite (word_is_not_close c Hc), IH.
Qed.

Lemma down_block_has_no_close (tables : schema) :
  forallb renderable_table tables = true ->
  occurs ");"
    (nl +++ nl +++ join nl ("-- Down" :: map drop_table_line tables) +++ nl)
  = false.
Proof.
  intros H. apply no_paren_occurs.
  rewrite !string_forallb_app.
  assert (G : string_forallb (fun c => negb (Ascii.eqb c ")"))
                (join nl ("-- Down" :: map drop_table_line tables)) = true).
  { apply join_forall; [reflexivity|]. cbn [forallb].
    apply andb_true_iff. split; [reflexivity|].
    apply forallb_forall. intros x Hx.
    apply in_map_iff in Hx as [tc [<- Htc]].
    rewrite forallb_forall in H.
    destruct (renderable_table_parts tc (H tc Htc)) as (_ & Hword & _).
    unfold drop_table_line, drop_table_stmt.
    rewrite !string_forallb_app, (words_have_no_close _ Hword).
    reflexivity. }
  now rewrite G.
Qed.

Lemma is_ascii_join (sep : string) (l : list string) :
  is_ascii sep = true -> forallb is_ascii l = true ->
  is_ascii (join sep l) = true.
Proof.
  intros Hsep. induction l as [|x l IH]; [reflexivity|].
  cbn [forallb]. intros H. apply andb_true_iff in H as [Hx Hl].
  destruct l as [|y l]; [exact Hx|].
  change (join sep (x :: y :: l)) with (x +++ sep +++ join sep (y :: l)).
  unfold is_ascii in *. rewrite !string_forallb_app, Hx, Hsep. now apply IH.
Qed.

(** Rendering the tables of an ASCII schema gives ASCII text. *)
Lemma is_ascii_table_lines (tc : string * columns) :
  ascii_table tc = true ->
  is_ascii (create_line tc) = true /\ is_ascii (drop_table_line tc) = true.
Proof.
  unfold ascii_table. intros H. apply andb_true_iff in H as [Hname Hcols].
  assert (Hlist : is_ascii (column_list (snd tc)) = true).
  { unfold column_list. apply is_ascii_join; [reflexivity|].
    induction (snd tc) as [|[name defn] cols IH]; [reflexivity|].
    cbn [forallb map fst snd] in Hcols |- *.
    apply andb_true_iff in Hcols as [Hcd Hcols].
    apply andb_true_iff in Hcd as [Hn Hd].
    rewrite (IH Hcols), andb_true_r.
    unfold is_ascii in *. now rewrite !string_forallb_app, Hn, Hd. }
  unfold create_line, drop_table_line, create_table_stmt, drop_table_stmt.
  unfold is_ascii in *.
  split; now rewrite !string_forallb_app, Hname, ?Hlist.
Qed.

Lemma is_ascii_lines {X : Type} (f : X -> string) (l : list X) :
  (forall x, In x l -> is_ascii (f x) = true) ->
  forallb is_ascii (map f l) = true.
Proof.
  intros H. apply forallb_forall. intros t Ht.
  apply in_map_iff in Ht as (x & <- & Hx). now apply H.
Qed.

(** X15. The migration from the empty schema to a schema [s], read back
    as a schema, is [s]: the Up block holds one CREATE TABLE statement
    per table, and [parse_schema] finds in the migration text exactly
    those tables with their columns, in the same order.  This holds for
    every dialect when [s] is ASCII text, as the migration then is, the
    table names are runs of word characters and the columns are in the
    form the parser gives them, with no comma, no semicolon and no
    constraint keyword at the head of a column. *)
Theorem created_tables_parse_back (s : schema) (d : string) :
  wf_schema s -> forallb ascii_table s = true ->
  forallb renderable_table s = true ->
  exists ch,
    diff_schemas [] s = Some ch /\
    is_ascii (generate_migration ch d) = true /\
    parse_schema (generate_migration ch d) = s.
Proof.
  intros Hwf Hascii Hall.
  assert (Hnil : wf_schema []) by (split; constructor).
  rewrite (diff_schemas_closed [] s Hnil Hwf).
  eexists. split; [reflexivity|].
  unfold added_columns_of, removed_columns_of.
  rewrite !column_changes_nil, minus_nil_r.
  change (minus [] s) with (@nil (string * columns)).
  destruct s as [|tc tables]; [split; reflexivity|].
  rewrite migration_of_added_tables. split.
  - rewrite forallb_forall in Hascii.
    unfold is_ascii. rewrite !string_forallb_app.
    fold (is_ascii (join nl (map create_line (tc :: tables)))).
    fold (is_ascii (join nl ("-- Down" :: map drop_table_line (tc :: tables)))).
    rewrite !is_ascii_join; try reflexivity.
    + cbn [forallb]. apply is_ascii_lines. intros x Hx.
      exact (proj2 (is_ascii_table_lines x (Hascii x Hx))).
    + apply is_ascii_lines. intros x Hx.
      exact (proj1 (is_ascii_table_lines x (Hascii x Hx))).
  - unfold parse_schema.
    unfold nl at 1. cbn [String.append].
    do 6 (rewrite finditer_skip by reflexivity).
    rewrite finditer_creates;
      [ | discriminate | exact Hall | now apply down_block_has_no_close ].
    apply (parse_matches_tables (tc :: tables) []); [apply Hwf|].
    apply Forall_forall. intros tc' Hin.
    apply parse_columns_table_body.
    + destruct Hwf as [_ Hcols]. rewrite Forall_forall in Hcols.
      now apply Hcols.
    + rewrite forallb_forall in Hall.
      now destruct (renderable_table_parts tc' (Hall tc' Hin)) as (_ & _ & H).
Qed.

Lemma created_tables_parse_back_witness :
  wf_schema [("t", [("id", "INTEGER PRIMARY KEY"); ("name", "TEXT")])] /\
  forallb ascii_table
    [("t", [("id", "INTEGER PRIMARY KEY"); ("name", "TEXT")])] = true /\
  forallb renderable_table
    [("t", [("id", "INTEGER PRIMARY KEY"); ("name", "TEXT")])] = true /\
  exists ch,
    diff_schemas [] [("t", [("id", "INTEGER PRIMARY KEY"); ("name", "TEXT")])]
    = Some ch /\
    is_ascii (generate_migration ch "sqlite") = true /\
    parse_schema (generate_migration ch "sqlite")
    = [("t", [("id", "INTEGER PRIMARY KEY"); ("name", "TEXT")])].
Proof.
  split; [apply wf_schemab_sound; reflexivity|].
  split; [reflexivity|]. split; [reflexivity|].
  apply (created_tables_parse_back
           [("t", [("id", "INTEGER PRIMARY KEY"); ("name", "TEXT")])]
           "sqlite");
    [apply wf_schemab_sound; reflexivity | reflexivity | reflexivity].
Defined.

(** ** Order of the parsed tables *)

Lemma mem_existsb {V : Type} (d : dict V) (k : string) :
  Dict.mem k d = existsb (String.eqb k) (Dict.keys d).
Proof.
  unfold Dict.mem. induction d as [|[k' v] d IH]; simpl; [reflexivity|].
  rewrite (String.eqb_sym k k').
  destruct (String.eqb k' k); [reflexivity | exact IH].
Qed.

Lemma keys_parse_match_order (ms : list (list string)) :
  forall tables : schema,
  Dict.keys (fold_left parse_match ms tables) =
  Dict.keys tables ++
  first_occurrences (Dict.keys tables)
    (map (fun m => nth 0 m EmptyString) ms).
Proof.
  induction ms as [|m ms IH]; intros tables; simpl.
  - now rewrite app_nil_r.
  - rewrite IH. unfold parse_match at 1 2. rewrite keys_set_cases.
    rewrite <- mem_existsb.
    destruct (Dict.mem (nth 0 m EmptyString) tables); [reflexivity|].
    now rewrite <- app_assoc.
Qed.

(** X16. The tables of the parsed schema come in the order in which
    their names first appear in the text: a later block for a name that
    was already seen replaces the columns of the table but does not move
    it. *)
Theorem tables_in_order_of_first_block (sql : string) :
  Dict.keys (parse_schema sql) =
  first_occurrences []
    (map (fun m => nth 0 m EmptyString) (finditer pattern sql)) /\
  (forall before name body after,
     finditer pattern sql = before ++ [name; body] :: after ->
     (forall m, In m before -> nth 0 m EmptyString <> name) ->
     exists ks,
       Dict.keys (parse_schema sql) =
       first_occurrences [] (map (fun m => nth 0 m EmptyString) before)
         ++ name :: ks).
Proof.
  split.
  - unfold parse_schema. now rewrite keys_parse_match_order.
  - intros before name body after Hms Hbefore.
    unfold parse_schema. rewrite Hms, fold_left_app. cbn [fold_left].
    rewrite keys_parse_match_order. unfold parse_match at 1.
    rewrite keys_set_cases.
    assert (Hb := keys_parse_match_order before []).
    cbn [Dict.keys map app] in Hb.
    change (map fst (fold_left parse_match before []))
      with (Dict.keys (fold_left parse_match before [])) in Hb.
    cbn [nth].
    destruct (Dict.mem name (fold_left parse_match before [])) eqn:E.
    + exfalso. apply mem_true_iff in E.
      apply keys_parse_matches in E as [[]|(m & Hm & Hn)].
      now apply (Hbefore m Hm).
    + rewrite Hb, <- app_assoc. eexists. reflexivity.
Qed.

(** ** Dialects *)

Lemma statements_dialect (ch : changes) (d d' : string) :
  String.eqb d "sqlite" = String.eqb d' "sqlite" ->
  statements ch d = statements ch d'.
Proof.
  intros H. unfold statements, drop_column_line. now rewrite H.
Qed.

(** X17. The dialect is only ever compared with ["sqlite"]: two dialects
    that are both ["sqlite"] or both something else give the same
    migration, and for a Change Set without column changes every dialect
    gives the same migration. *)
Theorem dialect_matters_for_column_drops_only (ch : changes)
    (d d' : string) :
  (String.eqb d "sqlite" = String.eqb d' "sqlite" ->
   generate_migration ch d = generate_migration ch d') /\
  (added_columns ch = [] -> removed_columns ch = [] ->
   generate_migration ch d = generate_migration ch d').
Proof.
  split.
  - intros H. rewrite !generate_migration_closed.
    now rewrite (statements_dialect ch d d' H).
  - intros Ha Hr. rewrite !generate_migration_closed.
    unfold statements. now rewrite Ha, Hr.
Qed.

(** ** Dry runs *)

Lemma parse_args_cons (arg : string) (rest : list string) (o : options) :
  parse_args (arg :: rest) o
  = match String.eqb arg "--dialect", rest with
    | true, value :: rest' =>
        parse_args rest'
          (mk_options value (dry_run o) (output_path o) (files o))
    | _, _ =>
        if String.eqb arg "--dry-run" then
          parse_args rest
            (mk_options (dialect o) true (output_path o) (files o))
        else
          match String.eqb arg "--output", rest with
          | true, value :: rest' =>
              parse_args rest'
                (mk_options (dialect o) (dry_run o) (Some value) (files o))
          | _, _ =>
              parse_args rest
                (mk_options (dialect o) (dry_run o) (output_path o)
                   (files o ++ [arg]))
          end
    end.
Proof. reflexivity. Qed.

Lemma parse_args_with_dry_run (args : list string) :
  (forall o, parse_args args (with_dry_run o)
             = with_dry_run (parse_args args o)) /\
  (forall arg o, parse_args (arg :: args) (with_dry_run o)
                 = with_dry_run (parse_args (arg :: args) o)).
Proof.
  induction args as [|a args [IH1 IH2]].
  - split; [intros o; reflexivity|].
    intros arg o. cbn [parse_args].
    destruct (String.eqb arg "--dialect"), (String.eqb arg "--dry-run"),
      (String.eqb arg "--output"); reflexivity.
  - split; [apply IH2|].
    intros arg o.
    rewrite (parse_args_cons arg (a :: args) o),
      (parse_args_cons arg (a :: args) (with_dry_run o)).
    destruct (String.eqb arg "--dialect"); cbv match beta.
    + apply (IH1 (mk_options a (dry_run o) (output_path o) (files o))).
    + destruct (String.eqb arg "--dry-run").
      * rewrite <- (IH2 a
                      (mk_options (dialect o) true (output_path o) (files o))).
        reflexivity.
      * destruct (String.eqb arg "--output"); cbv match beta.
        -- apply (IH1 (mk_options (dialect o) (dry_run o) (Some a) (files o))).
        -- apply (IH2 a (mk_options (dialect o) (dry_run o) (output_path o)
                            (files o ++ [arg]))).
Qed.

(** X18. A dry run rehearses the real run: when [main] ends without an
    exception on some arguments, it also does with [--dry-run] put in
    front of them, with the same exit status and the same text on the
    error stream unless the real run wrote the migration file; and the
    dry run writes no file. *)
Theorem dry_run_rehearses (args : list string) (w : world) (o : outcome) :
  main args w = Some o ->
  exists o',
    main ("--dry-run" :: args) w = Some o' /\
    exit_code o' = exit_code o /\
    written o' = None /\
    stderr o' = match written o with
                | Some _ => EmptyString
                | None => stderr o
                end.
Proof.
  unfold main.
  change (in_list "--help" ("--dry-run" :: args))
    with (in_list "--help" args).
  change (in_list "-h" ("--dry-run" :: args)) with (in_list "-h" args).
  change (parse_args ("--dry-run" :: args) default_options)
    with (parse_args args (with_dry_run default_options)).
  rewrite (proj1 (parse_args_with_dry_run args) default_options).
  destruct (in_list "--help" args || in_list "-h" args);
    [intros [= <-]; eexists; split; [reflexivity | now repeat split]|].
  set (opts := parse_args args default_options).
  cbn [with_dry_run files dry_run dialect output_path].
  destruct (List.length (files opts) <? 2);
    [intros [= <-]; eexists; split; [reflexivity | now repeat split]|].
  destruct (node_at w (nth 0 (files opts) EmptyString)) as [[old_text| |]|];
    [ | | discriminate
      | intros [= <-]; eexists; split; [reflexivity | now repeat split] ].
  - destruct (node_at w (nth 1 (files opts) EmptyString)) as [[new_text| |]|];
      [ | discriminate | discriminate
        | intros [= <-]; eexists; split; [reflexivity | now repeat split] ].
    destruct (diff_schemas (parse_schema old_text) (parse_schema new_text))
      as [ch|]; [|discriminate].
    rewrite !bind_some.
    destruct (negb _);
      [intros [= <-]; eexists; split; [reflexivity | now repeat split]|].
    destruct (dry_run opts);
      [intros [= <-]; eexists; split; [reflexivity | now repeat split]|].
    destruct (output_path opts) as [path|];
      [|intros [= <-]; eexists; split; [reflexivity | now repeat split]].
    destruct (is_empty path);
      [intros [= <-]; eexists; split; [reflexivity | now repeat split]|].
    destruct (writable w path); [|discriminate].
    intros [= <-]. eexists. split; [reflexivity | now repeat split].
  - destruct (node_at w (nth 1 (files opts) EmptyString)) as [[new_text| |]|];
      [ discriminate | discriminate | discriminate
        | intros [= <-]; eexists; split; [reflexivity | now repeat split] ].
Qed.

Lemma dry_run_rehearses_witness :
  main ["old.sql"; "new.sql"; "--output"; "up.sql"]
       (two_files "CREATE TABLE t (id INTEGER);"
                  "CREATE TABLE t (id INTEGER, email TEXT);")
  = Some (mk_outcome "" ("Migration written to up.sql" +++ nl) 0
            (Some ("up.sql", generate_migration ch_email "sqlite"))) /\
  exists o',
    main ["--dry-run"; "old.sql"; "new.sql"; "--output"; "up.sql"]
         (two_files "CREATE TABLE t (id INTEGER);"
                    "CREATE TABLE t (id INTEGER, email TEXT);")
    = Some o' /\
    exit_code o' = 0 /\ written o' = None.
Proof.
  assert (H : main ["old.sql"; "new.sql"; "--output"; "up.sql"]
                (two_files "CREATE TABLE t (id INTEGER);"
                           "CREATE TABLE t (id INTEGER, email TEXT);")
              = Some (mk_outcome "" ("Migration written to up.sql" +++ nl) 0
                        (Some ("up.sql",
                               generate_migration ch_email "sqlite"))))
    by reflexivity.
  split; [exact H|].
  destruct (dry_run_rehearses _ _ _ H) as (o' & Hm & He & Hw & _).
  exists o'. split; [exact Hm|]. split; [exact He | exact Hw].
Defined.
